(** * Sleeper scripts: lineup optimizer, standings, weekly ranks, field-goal buckets

    A shallow embedding of the four scripts of the repository:

    - [weekly-high-score/sleeper_weekly_max_pf_allteams.py]  (module [Lineup])
    - [standings/Standings.py]                               (module [Standings])
    - [weekly-high-score/topScorer.py]                       (module [TopScorer])
    - [kickers-analysis/Kickers.py]                          (module [Kickers])

    Python values are modelled as follows.  Unbounded [int]s are [Z].  Scores
    and points are finite Python floats; a float is modelled by the rational
    [Q] that it is, so comparing two floats is comparing their values, and
    adding two floats is adding their values and rounding the sum to the
    nearest float ([round_float]).  An insertion-ordered [dict] with string
    keys is an association list; a [dict] that is only looked up and updated
    by key is a [gmap].
    Network calls are arguments of the functions that make them: what the
    call returned for that league and week. *)

From Stdlib Require Import QArith Qabs Lqa.
From Stdlib Require Import Floats.SpecFloat.
From stdpp Require Import base option list sorting gmap strings fin_maps.

Local Open Scope Z_scope.

(** ** Python floats

    A Python float is an IEEE 754 binary64 number: 53 bits of precision,
    the smallest positive one being [2 ^ -1074].  The result of an addition
    is the exact sum rounded to the nearest float, to the one with an even
    last bit when two are as near.  (A sum beyond the largest float, which
    Python gives as [inf], is outside the model; no sum of scores gets
    there.) *)

(** [2 ^ e] for any integer [e]. *)
Definition pow2 (e : Z) : Q :=
  if bool_decide (0 ≤ e) then inject_Z (2 ^ e) else 1 # Z.to_pos (2 ^ (- e)).

(** The integer [k] with [2 ^ k <= |q| < 2 ^ (k + 1)], for [q] not zero. *)
Definition floor_log2 (q : Q) : Z :=
  let k := Z.log2 (Z.abs (Qnum q)) - Z.log2 (Zpos (Qden q)) in
  if Qle_bool (pow2 k) (Qabs q) then k else k - 1.

(** The integer nearest to [n / d], the even one of two that are as near;
    [n] is not negative and [d] is positive. *)
Definition round_half_even (n d : Z) : Z :=
  let f := n / d in
  match 2 * (n mod d) ?= d with
  | Lt => f
  | Gt => f + 1
  | Eq => if Z.even f then f else f + 1
  end.

(** The float nearest to [q]: [q] is rounded to a multiple of [2 ^ e], where
    [e] is the exponent of the last of the 53 bits of a float of the size of
    [q], and not below [-1074]. *)
Definition round_float (q : Q) : Q :=
  if bool_decide (Qnum q = 0) then 0%Q
  else
    let e := Z.max (floor_log2 q - 52) (-1074) in
    let scaled := (Qabs q / pow2 e)%Q in
    let m := round_half_even (Qnum scaled) (Zpos (Qden scaled)) in
    Qred (inject_Z (Z.sgn (Qnum q) * m) * pow2 e).

(** [x + y] on floats. *)
Definition float_add (x y : Q) : Q := round_float (x + y).

(** The value of a float of the Standard Library's specification of
    IEEE 754 arithmetic, to compare [float_add] with its addition. *)
Definition SF2Q (x : spec_float) : Q :=
  match x with
  | S754_finite s m e =>
      Qred (inject_Z (if s then Z.neg m else Z.pos m) * pow2 e)
  | _ => 0%Q
  end.

(** The floats that Python reads for [0.1], [0.2] and [0.3]. *)
Definition float_0_1 : Q := 3602879701896397 # 36028797018963968.
Definition float_0_2 : Q := 3602879701896397 # 18014398509481984.
Definition float_0_3 : Q := 5404319552844595 # 18014398509481984.

(** ** Python lists of numbers *)

(** [sum(xs)] on floats: the additions are made from left to right,
    starting from [0], and each one rounds. *)
Definition py_sum (xs : list Q) : Q := foldl float_add (0%Q) xs.

(** The exact sum of the values, without any rounding. *)
Definition sumQ (xs : list Q) : Q := foldr Qplus (0%Q) xs.

(** [l[:n]] for a Python [int] [n]: a negative [n] counts from the end, and
    is clamped at the start of the list. *)
Definition py_slice_to {A} (l : list A) (n : Z) : list A :=
  if bool_decide (0 ≤ n) then take (Z.to_nat n) l
  else take (Z.to_nat (Z.of_nat (length l) + n)) l.

(** ** [list.sort(key=..., reverse=True)]

    Python's sort is stable, and with [reverse=True] elements with equal
    keys keep their original order.  The stable descending sort is written
    here as an insertion sort: [x], which stood before every element of [l],
    goes in front of the first element whose key is not larger than its own. *)
Section sort_desc.
Context {A : Type} (key : A → Q).

Fixpoint insert_desc (x : A) (l : list A) : list A :=
  match l with
  | [] => [x]
  | y :: l' =>
      if Qle_bool (key y) (key x) then x :: y :: l'
      else y :: insert_desc x l'
  end.

Definition sort_desc (l : list A) : list A := foldr insert_desc [] l.

(** Descending by key. *)
Definition key_ge (a b : A) : Prop := (key b <= key a)%Q.
End sort_desc.

(** ** Insertion-ordered dictionaries with string keys *)

Abbreviation dict V := (list (string * V)).

Fixpoint dict_get {V} (d : dict V) (k : string) : option V :=
  match d with
  | [] => None
  | (k', v) :: d' => if decide (k' = k) then Some v else dict_get d' k
  end.

(** [k in d] *)
Definition dict_mem {V} (d : dict V) (k : string) : bool :=
  bool_decide (is_Some (dict_get d k)).

(** [d.get(k, dflt)] *)
Definition dict_get_or {V} (d : dict V) (k : string) (dflt : V) : V :=
  default dflt (dict_get d k).

(** [d[k] = v]: an existing key keeps its place, a new key goes last. *)
Fixpoint dict_set {V} (d : dict V) (k : string) (v : V) : dict V :=
  match d with
  | [] => [(k, v)]
  | (k', v') :: d' =>
      if decide (k' = k) then (k', v) :: d' else (k', v') :: dict_set d' k v
  end.

Definition dict_keys {V} (d : dict V) : list string := d.*1.

(** A Python [dict] holds each key once. *)
Definition dict_wf {V} (d : dict V) : Prop := NoDup (dict_keys d).

(** ** Facts about sums *)

(** [round_float] on the decimals 0.1, 0.2 and 0.3, on whole numbers and
    on ties; and float addition as the Standard Library specifies it, on
    the same numbers. *)
Example round_float_examples :
  round_float (1 # 10) = float_0_1
  ∧ round_float (2 # 10) = float_0_2
  ∧ round_float (3 # 10) = float_0_3
  ∧ round_float float_0_3 = float_0_3
  ∧ round_float 45 = 45%Q
  ∧ round_float (inject_Z (2 ^ 53 + 1)) = inject_Z (2 ^ 53)
  ∧ round_float (inject_Z (2 ^ 53 + 3)) = inject_Z (2 ^ 53 + 4)
  ∧ round_float (1 # Z.to_pos (2 ^ 1075)) = 0%Q
  ∧ round_float (- (1 # 10)) = (- float_0_1)%Q.
Proof. vm_compute. by split_and!. Qed.

Example float_add_as_specified :
  let f_0_1 := binary_normalize 53 1024 3602879701896397 (-55) false in
  let f_0_2 := binary_normalize 53 1024 3602879701896397 (-54) false in
  let f_0_3 := binary_normalize 53 1024 5404319552844595 (-54) false in
  SF2Q f_0_1 = float_0_1 ∧ SF2Q f_0_2 = float_0_2 ∧ SF2Q f_0_3 = float_0_3
  ∧ SF2Q (SFadd 53 1024 f_0_1 f_0_2) = float_add float_0_1 float_0_2
  ∧ SF2Q (SFadd 53 1024 (SFadd 53 1024 f_0_1 f_0_2) f_0_3)
    = float_add (float_add float_0_1 float_0_2) float_0_3
  ∧ SF2Q (SFadd 53 1024 (SFadd 53 1024 f_0_3 f_0_2) f_0_1)
    = float_add (float_add float_0_3 float_0_2) float_0_1.
Proof. vm_compute. by split_and!. Qed.

(** The sum of 0.3, 0.2 and 0.1 is 0.6, and the sum of 0.1, 0.2 and 0.3 is
    0.6000000000000001, the next float. *)
Example py_sum_order :
  py_sum [float_0_3; float_0_2; float_0_1] = 5404319552844595 # 9007199254740992
  ∧ py_sum [float_0_1; float_0_2; float_0_3] = 1351079888211149 # 2251799813685248.
Proof. vm_compute. by split. Qed.

Lemma sumQ_app (xs ys : list Q) : (sumQ (xs ++ ys) == sumQ xs + sumQ ys)%Q.
Proof.
  induction xs as [|x xs IH]; simpl.
  - lra.
  - rewrite IH. lra.
Qed.

Lemma sumQ_perm (xs ys : list Q) : xs ≡ₚ ys → (sumQ xs == sumQ ys)%Q.
Proof.
  induction 1 as [|x xs ys _ IH|x y xs|xs ys zs _ IH1 _ IH2]; simpl.
  - lra.
  - rewrite IH. lra.
  - lra.
  - rewrite IH1. exact IH2.
Qed.

Lemma sumQ_nonneg (xs : list Q) :
  Forall (λ x, (0 <= x)%Q) xs → (0 <= sumQ xs)%Q.
Proof.
  induction 1 as [|x xs Hx _ IH]; simpl; lra.
Qed.

(** ** Facts about the descending sort *)
Section sort_desc_facts.
Context {A : Type} (key : A → Q).

Lemma insert_desc_perm (x : A) (l : list A) : insert_desc key x l ≡ₚ x :: l.
Proof.
  induction l as [|y l IH]; simpl; [done|].
  destruct (Qle_bool (key y) (key x)); [done|].
  rewrite IH. apply Permutation_swap.
Qed.

Lemma sort_desc_perm (l : list A) : sort_desc key l ≡ₚ l.
Proof.
  induction l as [|x l IH]; simpl; [done|].
  rewrite insert_desc_perm. by rewrite IH.
Qed.

Lemma sort_desc_length (l : list A) : length (sort_desc key l) = length l.
Proof. by rewrite sort_desc_perm. Qed.

Lemma insert_desc_sorted (x : A) (l : list A) :
  StronglySorted (key_ge key) l → StronglySorted (key_ge key) (insert_desc key x l).
Proof.
  induction 1 as [|y l Hl IH Hy]; simpl.
  - repeat constructor.
  - destruct (Qle_bool (key y) (key x)) eqn:E.
    + apply Qle_bool_iff in E.
      constructor; [by constructor|].
      constructor; [exact E|].
      eapply Forall_impl; [exact Hy|].
      intros z Hz. unfold key_ge in *. lra.
    + assert (key x <= key y)%Q as Hxy.
      { destruct (Qlt_le_dec (key x) (key y)) as [?|Hle]; [lra|].
        apply Qle_bool_iff in Hle. congruence. }
      constructor; [exact IH|].
      rewrite insert_desc_perm. by constructor.
Qed.

Lemma sort_desc_sorted (l : list A) : StronglySorted (key_ge key) (sort_desc key l).
Proof.
  induction l as [|x l IH]; simpl; [constructor|].
  by apply insert_desc_sorted.
Qed.

(** The sort is stable: elements with the same key keep their order. *)
Lemma insert_desc_stable (P : A → Prop) `{!∀ x, Decision (P x)} (x : A) (l : list A) :
  (∀ a b, P a → P b → (key a == key b)%Q) →
  filter P (insert_desc key x l) = filter P (x :: l).
Proof.
  intros HP. induction l as [|y l IH]; simpl; [done|].
  destruct (Qle_bool (key y) (key x)) eqn:E; [done|].
  assert (¬ (P x ∧ P y)) as Hxy.
  { intros [Hx Hy]. specialize (HP y x Hy Hx).
    assert (key y <= key x)%Q as Hle by lra.
    apply Qle_bool_iff in Hle. congruence. }
  rewrite (filter_cons _ y), IH, !(filter_cons _ x), (filter_cons _ y).
  destruct (decide (P x)), (decide (P y)); try done. by destruct Hxy.
Qed.

Lemma sort_desc_stable (P : A → Prop) `{!∀ x, Decision (P x)} (l : list A) :
  (∀ a b, P a → P b → (key a == key b)%Q) →
  filter P (sort_desc key l) = filter P l.
Proof.
  intros HP. induction l as [|x l IH]; [done|].
  cbn [sort_desc foldr]. fold (sort_desc key l).
  rewrite insert_desc_stable by done.
  by rewrite !(filter_cons _ x), IH.
Qed.

Lemma sort_desc_nil_inv (l : list A) : sort_desc key l = [] → l = [].
Proof.
  intros H. apply (f_equal length) in H.
  rewrite sort_desc_length in H. by destruct l.
Qed.
End sort_desc_facts.


(** ** Facts about dictionaries *)
Section dict_facts.
Context {V : Type}.
Implicit Types (d : dict V) (k : string) (v : V).

Lemma dict_get_set_eq d k v : dict_get (dict_set d k v) k = Some v.
Proof.
  induction d as [|[k' v'] d IH]; simpl.
  - by rewrite decide_True.
  - destruct (decide (k' = k)) as [->|Hne]; simpl.
    + by rewrite decide_True.
    + by rewrite decide_False.
Qed.

Lemma dict_get_set_ne d k k' v :
  k ≠ k' → dict_get (dict_set d k v) k' = dict_get d k'.
Proof.
  intros Hne. induction d as [|[k0 v0] d IH]; simpl.
  - by rewrite decide_False.
  - destruct (decide (k0 = k)) as [->|Hne0]; simpl.
    + by rewrite !decide_False.
    + by rewrite IH.
Qed.

Lemma dict_get_Some_elem d k v : dict_get d k = Some v → (k, v) ∈ d.
Proof.
  induction d as [|[k0 v0] d IH]; simpl; [done|].
  destruct (decide (k0 = k)) as [->|Hne].
  - intros [= ->]. left.
  - intros H. right. by apply IH.
Qed.

Lemma dict_get_None_keys d k : dict_get d k = None ↔ k ∉ dict_keys d.
Proof.
  unfold dict_keys. induction d as [|[k0 v0] d IH]; simpl.
  - split; [intros _; apply not_elem_of_nil|done].
  - rewrite not_elem_of_cons. destruct (decide (k0 = k)) as [->|Hne].
    + split; [done|]. by intros [? _].
    + rewrite IH. split; [by intros ?; split|by intros [_ ?]].
Qed.

Lemma dict_get_is_Some_keys d k : is_Some (dict_get d k) ↔ k ∈ dict_keys d.
Proof.
  destruct (dict_get d k) eqn:E.
  - split; [intros _|by eauto].
    destruct (decide (k ∈ dict_keys d)) as [|Hn]; [done|].
    apply dict_get_None_keys in Hn. congruence.
  - split; [by intros [? ?]|]. intros Hin.
    apply dict_get_None_keys in E. done.
Qed.

Lemma dict_elem_get d k v : dict_wf d → (k, v) ∈ d → dict_get d k = Some v.
Proof.
  unfold dict_wf, dict_keys. induction d as [|[k0 v0] d IH]; simpl.
  - intros _ H. by apply elem_of_nil in H.
  - intros Hnd H. apply NoDup_cons in Hnd as [Hk0 Hnd].
    apply elem_of_cons in H as [[= -> ->]|H].
    + by rewrite decide_True.
    + destruct (decide (k0 = k)) as [->|Hne]; [|by apply IH].
      exfalso. apply Hk0. apply list_elem_of_fmap. by exists (k, v).
Qed.

Lemma dict_mem_elem d k v : (k, v) ∈ d → dict_mem d k = true.
Proof.
  intros H. unfold dict_mem. apply bool_decide_eq_true.
  apply dict_get_is_Some_keys. unfold dict_keys.
  apply list_elem_of_fmap. by exists (k, v).
Qed.

Lemma dict_mem_cons d k k0 v0 :
  dict_mem ((k0, v0) :: d) k = if decide (k0 = k) then true else dict_mem d k.
Proof.
  unfold dict_mem. cbn [dict_get]. destruct (decide (k0 = k)); [|done].
  apply bool_decide_eq_true. by eexists.
Qed.

Lemma dict_keys_set d k v :
  dict_keys (dict_set d k v) =
  if dict_mem d k then dict_keys d else dict_keys d ++ [k].
Proof.
  induction d as [|[k0 v0] d IH]; [done|].
  rewrite dict_mem_cons. cbn [dict_set].
  destruct (decide (k0 = k)) as [->|Hne]; [done|].
  unfold dict_keys in *. cbn [fmap list_fmap]. rewrite IH.
  by destruct (dict_mem d k).
Qed.

Lemma dict_wf_set d k v : dict_wf d → dict_wf (dict_set d k v).
Proof.
  intros Hwf. unfold dict_wf. rewrite dict_keys_set.
  destruct (dict_mem d k) eqn:E; [done|].
  apply bool_decide_eq_false in E.
  rewrite dict_get_is_Some_keys in E.
  apply NoDup_app. split_and!; [done| |apply NoDup_singleton].
  intros x Hx Hx'. apply list_elem_of_singleton in Hx' as ->. done.
Qed.
End dict_facts.

Lemma dict_get_fmap_values {V W} (f : V → W) (d : dict V) (k : string) :
  dict_get (prod_map id f <$> d) k = f <$> dict_get d k.
Proof.
  induction d as [|[k0 v0] d IH]; simpl; [done|].
  by destruct (decide (k0 = k)).
Qed.

(** ** Slices, filters and sub-multisets *)

Lemma py_slice_to_nonneg {A} (l : list A) (n : Z) :
  0 ≤ n → py_slice_to l n = take (Z.to_nat n) l.
Proof. intros H. unfold py_slice_to. by rewrite bool_decide_eq_true_2. Qed.

Lemma py_slice_to_sublist {A} (l : list A) (n : Z) : py_slice_to l n `sublist_of` l.
Proof. unfold py_slice_to. destruct (bool_decide _); apply sublist_take. Qed.

Lemma py_slice_to_all {A} (l : list A) (n : Z) :
  Z.of_nat (length l) ≤ n → py_slice_to l n = l.
Proof.
  intros H. rewrite py_slice_to_nonneg; [|lia].
  apply take_ge. lia.
Qed.

Lemma py_slice_to_length_le {A} (l : list A) (n : Z) :
  0 ≤ n → Z.of_nat (length (py_slice_to l n)) ≤ n.
Proof.
  intros H. rewrite py_slice_to_nonneg; [|done].
  rewrite length_take. lia.
Qed.

Lemma filter_submseteq_mono {A} (P : A → Prop) `{!∀ x, Decision (P x)}
    (m l : list A) :
  m ⊆+ l → filter P m ⊆+ filter P l.
Proof.
  induction 1 as [|x m l _ IH|x y l|x m l _ IH|m l k _ IH1 _ IH2].
  - done.
  - rewrite !filter_cons. destruct (decide (P x)); [by constructor|done].
  - rewrite !filter_cons.
    destruct (decide (P x)), (decide (P y)); try done. by constructor.
  - rewrite filter_cons. destruct (decide (P x)); [by constructor|done].
  - by etrans.
Qed.

Lemma filter_all {A} (P : A → Prop) `{!∀ x, Decision (P x)} (l : list A) :
  Forall P l → filter P l = l.
Proof.
  induction 1 as [|x l Hx _ IH]; [done|].
  rewrite filter_cons, decide_True by done. by rewrite IH.
Qed.

Lemma filter_none {A} (P : A → Prop) `{!∀ x, Decision (P x)} (l : list A) :
  Forall (λ x, ¬ P x) l → filter P l = [].
Proof.
  induction 1 as [|x l Hx _ IH]; [done|].
  by rewrite filter_cons, decide_False.
Qed.

(** ** The best [k] of a list sorted by a non-negative key

    No [k] elements of a list have a larger key sum than the first [k] of
    its descending sort. *)
Section top_k.
Context {A : Type} (key : A → Q).

Lemma sumQ_key_cons (x : A) (l : list A) :
  sumQ (key <$> x :: l) = (key x + sumQ (key <$> l))%Q.
Proof. reflexivity. Qed.


End top_k.

(** ** Sorted lists of weeks *)

Lemma StronglySorted_filter {A} (R : relation A) (P : A → Prop)
    `{!∀ x, Decision (P x)} (l : list A) :
  StronglySorted R l → StronglySorted R (filter P l).
Proof.
  induction 1 as [|x l _ IH Hx]; [constructor|].
  rewrite filter_cons. destruct (decide (P x)); [|done].
  constructor; [done|].
  apply Forall_forall. intros y Hy. apply list_elem_of_filter in Hy as [_ Hy].
  rewrite Forall_forall in Hx. by apply Hx.
Qed.

Lemma StronglySorted_seqZ (m n : Z) : StronglySorted Z.lt (seqZ m n).
Proof.
  remember (Z.to_nat n) as k eqn:Hk. revert m n Hk.
  induction k as [|k IH]; intros m n Hk.
  - rewrite seqZ_nil by lia. constructor.
  - rewrite seqZ_cons by lia. constructor; [apply IH; lia|].
    apply Forall_seqZ. lia.
Qed.

(** ** [sleeper_weekly_max_pf_allteams.py] *)
Module Lineup.

(** [FIXED_REQUIRED], [POS_ALIAS] *)
Definition FIXED_REQUIRED : dict Z :=
  [("QB", 1); ("RB", 2); ("WR", 3); ("TE", 1); ("DEF", 1); ("K", 1)]%string.

Definition POS_ALIAS : dict string :=
  [("DST", "DEF"); ("D/ST", "DEF"); ("PK", "K")]%string.

Definition normalize_pos (pos : string) : string := dict_get_or POS_ALIAS pos pos.

(** The part of the league document the script reads:
    [league.get("roster_positions")], absent or [null] as [None]. *)
Record league := { roster_positions : option (list string) }.

(** The first loop of [compute_required_from_league]: [counts[p] += 1] on a
    [defaultdict(int)]. *)
Definition count_slot (ignore allowed : gset string)
    (counts : dict Z) (pos : string) : dict Z :=
  if bool_decide (pos ∈ ignore) then counts
  else
    let p := normalize_pos pos in
    if bool_decide (p ∈ allowed)
    then dict_set counts p (dict_get_or counts p 0 + 1)
    else counts.

(** The second loop: [if counts.get(k, 0) == 0: counts[k] = v]. *)
Definition fill_default (counts : dict Z) (kv : string * Z) : dict Z :=
  if bool_decide (dict_get_or counts kv.1 0 = 0)
  then dict_set counts kv.1 kv.2
  else counts.

Definition compute_required_from_league (lg : league) : dict Z :=
  let rp := default [] (roster_positions lg) in
  let ignore : gset string := {[ "BN"; "IR"; "TAXI" ]}%string in
  let allowed : gset string := list_to_set (dict_keys FIXED_REQUIRED) in
  let counts := foldl (count_slot ignore allowed) [] rp in
  foldl fill_default counts FIXED_REQUIRED.

(** An entry of the roster pool, as [build_roster_pool] makes them. *)
Record player := {
  player_id : string;
  player_name : string;
  position : string;
  score : Q
}.

(** [{**p, "slot": pos}] *)
Record slotted := { sl_player : player; slot : string }.

Definition with_slot (pos : string) (p : player) : slotted :=
  {| sl_player := p; slot := pos |}.

(** The first loop of [select_fixed_best]: [by_pos[p["position"]].append(p)]
    on a [defaultdict(list)], for the players whose position is a key of
    [required]. *)
Definition group_step (required : dict Z)
    (by_pos : dict (list player)) (p : player) : dict (list player) :=
  if dict_mem required (position p)
  then dict_set by_pos (position p) (dict_get_or by_pos (position p) [] ++ [p])
  else by_pos.

(** The second loop: every group sorted by score, highest first. *)
Definition sort_groups (by_pos : dict (list player)) : dict (list player) :=
  prod_map id (sort_desc score) <$> by_pos.

(** The third loop: [chosen += [... for p in by_pos.get(pos, [])[:need]]]. *)
Definition choose_step (by_pos : dict (list player))
    (chosen : list slotted) (pn : string * Z) : list slotted :=
  chosen ++ (with_slot pn.1 <$> py_slice_to (dict_get_or by_pos pn.1 []) pn.2).

Definition select_fixed_best (players : list player) (required : dict Z)
    : list slotted * Q :=
  let by_pos := sort_groups (foldl (group_step required) [] players) in
  let chosen := foldl (choose_step by_pos) [] required in
  let total := py_sum ((λ s, score (sl_player s)) <$> chosen) in
  (chosen, total).

(** The example of the specification: one QB and three RBs, one QB slot and
    two RB slots. *)
Definition example_pool : list player :=
  [ {| player_id := "1"; player_name := "a"; position := "QB"; score := 20 |};
    {| player_id := "2"; player_name := "b"; position := "RB"; score := 15 |};
    {| player_id := "3"; player_name := "c"; position := "RB"; score := 10 |};
    {| player_id := "4"; player_name := "d"; position := "RB"; score := 5 |} ]%string%Q.

Definition example_required : dict Z := [("QB", 1); ("RB", 2)]%string.

Example select_fixed_best_example :
  select_fixed_best example_pool example_required =
  (zip_with with_slot ["QB"; "RB"; "RB"]%string (take 3 example_pool), 45%Q).
Proof. vm_compute. reflexivity. Qed.

(** *** What the three loops of [select_fixed_best] compute *)

(** The players of the pool at one position, in pool order. *)
Definition eligible (players : list player) (pos : string) : list player :=
  filter (λ p, position p = pos) players.

(** The players taken for one entry of [required]. *)
Definition picks (players : list player) (pn : string * Z) : list slotted :=
  with_slot pn.1 <$> py_slice_to (sort_desc score (eligible players pn.1)) pn.2.

(** The lineup entries assigned to one slot. *)
Definition at_slot (pos : string) (lineup : list slotted) : list slotted :=
  filter (λ s, slot s = pos) lineup.

(** The scores of a lineup. *)
Definition scores (lineup : list slotted) : list Q :=
  (λ s, score (sl_player s)) <$> lineup.

Lemma group_step_get required by_pos p pos :
  dict_get_or (group_step required by_pos p) pos [] =
  dict_get_or by_pos pos [] ++
    (if dict_mem required pos then eligible [p] pos else []).
Proof.
  unfold group_step, eligible. rewrite filter_cons, filter_nil.
  destruct (decide (position p = pos)) as [<-|Hne].
  - destruct (dict_mem required (position p)); [|by rewrite app_nil_r].
    unfold dict_get_or at 1. by rewrite dict_get_set_eq.
  - assert (dict_get_or by_pos pos [] ++
              (if dict_mem required pos then [] else []) =
            dict_get_or by_pos pos []) as ->.
    { destruct (dict_mem required pos); by rewrite app_nil_r. }
    destruct (dict_mem required (position p)); [|done].
    unfold dict_get_or at 1. by rewrite dict_get_set_ne.
Qed.

Lemma group_get required players by_pos pos :
  dict_get_or (foldl (group_step required) by_pos players) pos [] =
  dict_get_or by_pos pos [] ++
    (if dict_mem required pos then eligible players pos else []).
Proof.
  revert by_pos. induction players as [|p players IH]; intros by_pos; simpl.
  - destruct (dict_mem required pos); by rewrite app_nil_r.
  - rewrite IH, group_step_get.
    destruct (dict_mem required pos); [|by rewrite !app_nil_r].
    rewrite <- (assoc (++)). f_equal.
    change (p :: players) with ([p] ++ players).
    unfold eligible. by rewrite filter_app.
Qed.

Lemma sort_groups_get by_pos pos :
  dict_get_or (sort_groups by_pos) pos [] =
  sort_desc score (dict_get_or by_pos pos []).
Proof.
  unfold dict_get_or, sort_groups. rewrite dict_get_fmap_values.
  by destruct (dict_get by_pos pos).
Qed.

Lemma choose_fold by_pos (acc : list slotted) (required : dict Z) :
  foldl (choose_step by_pos) acc required =
  acc ++ (required ≫=
    λ pn, with_slot pn.1 <$> py_slice_to (dict_get_or by_pos pn.1 []) pn.2).
Proof.
  revert acc. induction required as [|pn required IH]; intros acc.
  - by rewrite app_nil_r.
  - cbn [foldl]. rewrite IH, bind_cons. unfold choose_step.
    by rewrite <- (assoc (++)).
Qed.

(** The lineup is, entry by entry of [required], the first [need] players
    of the descending sort of the pool's players at that position. *)
Lemma select_fixed_best_chosen players required :
  (select_fixed_best players required).1 = required ≫= picks players.
Proof.
  unfold select_fixed_best. cbn [fst]. rewrite choose_fold. cbn [app].
  apply Forall_bind_ext, Forall_forall. intros [pos need] Hin.
  unfold picks. cbn [fst snd]. rewrite sort_groups_get, group_get.
  by rewrite (dict_mem_elem _ _ _ Hin).
Qed.

(** The total returned is the float sum of the scores of the lineup, in
    the order of the lineup. *)
Lemma select_fixed_best_total players required :
  (select_fixed_best players required).2 =
  py_sum (scores (select_fixed_best players required).1).
Proof. reflexivity. Qed.

Lemma at_slot_picks players pos pn :
  at_slot pos (picks players pn) = if decide (pn.1 = pos) then picks players pn else [].
Proof.
  unfold at_slot, picks. destruct (decide (pn.1 = pos)) as [E|E].
  - apply filter_all, Forall_forall. intros s Hs.
    apply list_elem_of_fmap in Hs as (p & -> & _). done.
  - apply filter_none, Forall_forall. intros s Hs.
    apply list_elem_of_fmap in Hs as (p & -> & _). done.
Qed.

(** With each key held once, the entries at slot [pos] are the picks of
    the entry of [pos]. *)
Lemma at_slot_bind players (required : dict Z) pos :
  dict_wf required →
  at_slot pos (required ≫= picks players) =
  match dict_get required pos with
  | Some need => picks players (pos, need)
  | None => []
  end.
Proof.
  unfold dict_wf, dict_keys, at_slot.
  induction required as [|[k n] required IH]; intros Hnd; [done|].
  rewrite fmap_cons in Hnd. cbn [fst] in Hnd.
  apply NoDup_cons in Hnd as [Hk Hnd].
  rewrite bind_cons, filter_app. fold (at_slot pos (picks players (k, n))).
  rewrite at_slot_picks, IH by done. cbn [dict_get fst].
  destruct (decide (k = pos)) as [->|Hne]; [|done].
  assert (dict_get required pos = None) as -> by by apply dict_get_None_keys.
  by rewrite app_nil_r.
Qed.

Lemma picks_eligible players pn s :
  s ∈ picks players pn →
  slot s = pn.1 ∧ position (sl_player s) = pn.1 ∧ sl_player s ∈ players.
Proof.
  unfold picks. intros Hs. apply list_elem_of_fmap in Hs as (p & -> & Hp).
  cbn [slot sl_player with_slot].
  eapply sublist_subseteq in Hp; [|apply py_slice_to_sublist].
  rewrite sort_desc_perm in Hp.
  apply list_elem_of_filter in Hp as [? ?]. done.
Qed.

Lemma sl_player_with_slot pos (l : list player) :
  sl_player <$> (with_slot pos <$> l) = l.
Proof. induction l as [|p l IH]; [done|]. cbn. by f_equal. Qed.

Lemma scores_with_slot pos (l : list player) :
  scores (with_slot pos <$> l) = score <$> l.
Proof. unfold scores. induction l as [|p l IH]; [done|]. cbn. by f_equal. Qed.

Lemma scores_players (sel : list slotted) :
  scores sel = score <$> (sl_player <$> sel).
Proof. unfold scores. induction sel as [|s sel IH]; [done|]. cbn. by f_equal. Qed.

(** *** The lineup respects the slots *)

Lemma at_slot_count_le players (required : dict Z) pos need :
  dict_wf required → dict_get required pos = Some need → 0 ≤ need →
  Z.of_nat (length (at_slot pos (required ≫= picks players))) ≤ need.
Proof.
  intros Hwf Hget Hneed.
  rewrite at_slot_bind, Hget by done. unfold picks. cbn [fst snd].
  rewrite length_fmap. by apply py_slice_to_length_le.
Qed.

(** C2: every player of the returned lineup stands in the slot of its own
    normalized position, which is a key of [required]; and, [required] being
    a dictionary (each key once) whose count for [pos] is not negative, at
    most [required[pos]] players of the lineup are assigned to [pos]. *)
Theorem select_fixed_best_respects_slots
    (players : list player) (required : dict Z) :
  let lineup := (select_fixed_best players required).1 in
  (∀ s, s ∈ lineup →
     position (sl_player s) = slot s ∧ dict_mem required (slot s) = true)
  ∧ (dict_wf required →
     ∀ pos need, dict_get required pos = Some need → 0 ≤ need →
       Z.of_nat (length (at_slot pos lineup)) ≤ need).
Proof.
  cbn zeta. rewrite select_fixed_best_chosen. split.
  - intros s Hs. apply list_elem_of_bind in Hs as ([pos need] & Hs & Hin).
    apply picks_eligible in Hs as (-> & -> & _). split; [done|].
    by apply (dict_mem_elem _ _ need).
  - intros Hwf pos need Hget Hneed. by apply at_slot_count_le.
Qed.

Lemma select_fixed_best_respects_slots_witness :
  dict_wf example_required
  ∧ dict_get example_required "RB" = Some 2
  ∧ 0 ≤ 2
  ∧ Z.of_nat (length (at_slot "RB"
        (select_fixed_best example_pool example_required).1)) ≤ 2.
Proof.
  assert (dict_wf example_required) as Hwf.
  { apply (bool_decide_unpack _). vm_compute. exact I. }
  split_and!; [exact Hwf|reflexivity|lia|].
  apply (proj2 (select_fixed_best_respects_slots example_pool example_required));
    [exact Hwf|reflexivity|lia].
Defined.

(** *** Partial lineups *)

(** [del required[pos]] *)
Definition dict_del {V} (d : dict V) (k : string) : dict V :=
  filter (λ kv, kv.1 ≠ k) d.

Lemma picks_all players pos need :
  Z.of_nat (length (eligible players pos)) ≤ need →
  picks players (pos, need) = with_slot pos <$> sort_desc score (eligible players pos).
Proof.
  intros H. unfold picks. cbn [fst snd].
  rewrite py_slice_to_all; [done|]. by rewrite sort_desc_length.
Qed.

Lemma picks_absent players pos need :
  eligible players pos = [] → picks players (pos, need) = [].
Proof.
  intros H. unfold picks. cbn [fst snd]. rewrite H. cbn [sort_desc foldr].
  unfold py_slice_to. destruct (bool_decide _); by rewrite take_nil.
Qed.

Lemma bind_picks_del players (required : dict Z) pos :
  eligible players pos = [] →
  dict_del required pos ≫= picks players = required ≫= picks players.
Proof.
  intros H. unfold dict_del. induction required as [|[k n] required IH]; [done|].
  rewrite filter_cons, bind_cons. cbn [fst].
  destruct (decide (k ≠ pos)) as [Hne|Heq].
  - by rewrite bind_cons, IH.
  - apply dec_stable in Heq as ->. by rewrite picks_absent, IH.
Qed.

(** C3: when the pool holds no more players at [pos] than [required[pos]]
    asks for, the lineup entries at slot [pos] are exactly the pool's players
    at [pos] (highest score first), as many as there are and no other; when
    the pool holds no player at [pos], the lineup has no entry at slot [pos]
    and lineup and total are those computed without [pos] in [required]. *)
Theorem select_fixed_best_partial
    (players : list player) (required : dict Z) (pos : string) :
  let lineup := (select_fixed_best players required).1 in
  (dict_wf required →
   ∀ need, dict_get required pos = Some need →
     Z.of_nat (length (eligible players pos)) ≤ need →
     at_slot pos lineup = with_slot pos <$> sort_desc score (eligible players pos)
     ∧ length (at_slot pos lineup) = length (eligible players pos)
     ∧ sl_player <$> at_slot pos lineup ≡ₚ eligible players pos)
  ∧ (eligible players pos = [] →
     at_slot pos lineup = []
     ∧ select_fixed_best players required =
       select_fixed_best players (dict_del required pos)).
Proof.
  cbn zeta. split.
  - intros Hwf need Hget Hfew.
    rewrite select_fixed_best_chosen, at_slot_bind, Hget, picks_all by done.
    split_and!; [done|by rewrite length_fmap, sort_desc_length|].
    rewrite sl_player_with_slot. apply sort_desc_perm.
  - intros Habs. split.
    + rewrite select_fixed_best_chosen. unfold at_slot.
      apply filter_none, Forall_forall. intros s Hs Hslot.
      apply list_elem_of_bind in Hs as (pn & Hs & _).
      apply picks_eligible in Hs as (Hsl & Hp & Hin).
      assert (sl_player s ∈ eligible players pos) as Hel.
      { apply list_elem_of_filter. split; [congruence|done]. }
      rewrite Habs in Hel. by apply elem_of_nil in Hel.
    + assert (∀ R, select_fixed_best players R =
                ((select_fixed_best players R).1,
                 py_sum (scores (select_fixed_best players R).1))) as Hpair
        by reflexivity.
      rewrite (Hpair required), (Hpair (dict_del required pos)).
      by rewrite !select_fixed_best_chosen, bind_picks_del.
Qed.

(** A pool with one RB where two are asked for, and no TE at all. *)
Definition short_pool : list player := take 2 example_pool.
Definition short_required : dict Z := [("QB", 1); ("RB", 2); ("TE", 1)]%string.

Lemma select_fixed_best_partial_witness :
  (dict_wf short_required
   ∧ dict_get short_required "RB" = Some 2
   ∧ Z.of_nat (length (eligible short_pool "RB")) ≤ 2
   ∧ length (at_slot "RB" (select_fixed_best short_pool short_required).1) = 1%nat)
  ∧ (eligible short_pool "TE" = []
     ∧ at_slot "TE" (select_fixed_best short_pool short_required).1 = []).
Proof.
  assert (dict_wf short_required) as Hwf.
  { apply (bool_decide_unpack _). vm_compute. exact I. }
  split.
  - split_and!; [exact Hwf|reflexivity|vm_compute; discriminate|].
    apply (proj1 (select_fixed_best_partial short_pool short_required "RB")
             Hwf 2 eq_refl).
    vm_compute. discriminate.
  - split; [reflexivity|].
    apply (proj2 (select_fixed_best_partial short_pool short_required "TE")).
    reflexivity.
Defined.

(** *** The greedy lineup is optimal *)

(** A selection from the pool that respects the slots of [required]: its
    players are taken from the pool, none more often than the pool holds it;
    each stands in a slot that is a key of [required] and is its own
    position; and no position of [required] gets more players than its
    count. *)
Definition valid_selection (players : list player) (required : dict Z)
    (sel : list slotted) : Prop :=
  sl_player <$> sel ⊆+ players
  ∧ Forall (λ s, position (sl_player s) = slot s
                 ∧ dict_mem required (slot s) = true) sel
  ∧ Forall (λ pn, Z.of_nat (length (at_slot pn.1 sel)) ≤ pn.2) required.


Lemma sumQ_scores_split (P : slotted → Prop) `{!∀ s, Decision (P s)}
    (sel : list slotted) :
  (sumQ (scores sel) ==
   sumQ (scores (filter P sel)) + sumQ (scores (filter (λ s, ¬ P s) sel)))%Q.
Proof.
  rewrite <- sumQ_app. apply sumQ_perm. unfold scores.
  rewrite <- fmap_app. apply fmap_Permutation.
  symmetry. apply filter_app_complement.
Qed.


(** *** The required-slot map of a league *)

(** The entries of [roster_positions] that normalize to [k]. *)
Definition matching_slots (rp : list string) (k : string) : list string :=
  filter (λ pos, normalize_pos pos = k) rp.

(** What [compute_required_from_league] is to return for [k] with default
    [v]. *)
Definition required_count (rp : list string) (k : string) (v : Z) : Z :=
  let n := Z.of_nat (length (matching_slots rp k)) in
  if bool_decide (n = 0) then v else n.

Section count_loop.
Context (ignore allowed : gset string).
Hypothesis ignore_not_allowed :
  ∀ pos, pos ∈ ignore → normalize_pos pos ∉ allowed.

Lemma count_slot_get counts pos k :
  dict_get_or (count_slot ignore allowed counts pos) k 0 =
  dict_get_or counts k 0 +
    (if bool_decide (k ∈ allowed ∧ normalize_pos pos = k) then 1 else 0).
Proof.
  unfold count_slot. case_bool_decide as Hig.
  - rewrite bool_decide_eq_false_2; [lia|].
    intros [Hk <-]. by apply (ignore_not_allowed pos).
  - case_bool_decide as Hal.
    + destruct (decide (normalize_pos pos = k)) as [<-|Hne].
      * rewrite bool_decide_eq_true_2 by done.
        unfold dict_get_or at 1. by rewrite dict_get_set_eq.
      * rewrite bool_decide_eq_false_2 by (by intros [_ ?]).
        unfold dict_get_or at 1. rewrite dict_get_set_ne by done.
        unfold dict_get_or. lia.
    + rewrite bool_decide_eq_false_2; [lia|]. by intros [Hk <-].
Qed.

Lemma count_loop_get counts rp k :
  k ∈ allowed →
  dict_get_or (foldl (count_slot ignore allowed) counts rp) k 0 =
  dict_get_or counts k 0 + Z.of_nat (length (matching_slots rp k)).
Proof.
  intros Hk. revert counts.
  induction rp as [|pos rp IH]; intros counts; cbn [foldl].
  - unfold matching_slots. rewrite filter_nil. cbn. lia.
  - rewrite IH, count_slot_get. unfold matching_slots. rewrite filter_cons.
    destruct (decide (normalize_pos pos = k)) as [E|E].
    + rewrite bool_decide_eq_true_2 by done. cbn [length]. lia.
    + rewrite bool_decide_eq_false_2 by (by intros [_ ?]). lia.
Qed.

Lemma count_slot_keys counts pos k :
  k ∈ dict_keys (count_slot ignore allowed counts pos) →
  k ∈ dict_keys counts ∨ k ∈ allowed.
Proof.
  unfold count_slot. case_bool_decide; [by left|].
  case_bool_decide as Hal; [|by left].
  rewrite dict_keys_set. destruct (dict_mem counts _); [by left|].
  intros Hin. apply elem_of_app in Hin as [?|Hin]; [by left|].
  apply list_elem_of_singleton in Hin as ->. by right.
Qed.

Lemma count_loop_keys counts rp k :
  k ∈ dict_keys (foldl (count_slot ignore allowed) counts rp) →
  k ∈ dict_keys counts ∨ k ∈ allowed.
Proof.
  revert counts. induction rp as [|pos rp IH]; intros counts; cbn [foldl].
  - by left.
  - intros Hin. apply IH in Hin as [Hin|?]; [|by right].
    by apply count_slot_keys in Hin.
Qed.

Lemma count_loop_wf counts rp :
  dict_wf counts → dict_wf (foldl (count_slot ignore allowed) counts rp).
Proof.
  revert counts. induction rp as [|pos rp IH]; intros counts Hwf; [done|].
  cbn [foldl]. apply IH. unfold count_slot.
  repeat case_bool_decide; try done. by apply dict_wf_set.
Qed.
End count_loop.

Lemma fill_default_get counts kv k :
  dict_get (fill_default counts kv) k =
  if bool_decide (kv.1 = k ∧ dict_get_or counts k 0 = 0) then Some kv.2
  else dict_get counts k.
Proof.
  unfold fill_default. destruct (decide (kv.1 = k)) as [<-|Hne].
  - case_bool_decide as E.
    + rewrite bool_decide_eq_true_2 by done. apply dict_get_set_eq.
    + rewrite bool_decide_eq_false_2; [done|]. by intros [_ ?].
  - rewrite (bool_decide_eq_false_2 (_ ∧ _)) by (by intros [? _]).
    case_bool_decide; [|done]. by apply dict_get_set_ne.
Qed.

Lemma fill_loop_get (defaults : dict Z) counts k :
  dict_wf defaults →
  dict_get (foldl fill_default counts defaults) k =
  match dict_get defaults k with
  | Some v => if bool_decide (dict_get_or counts k 0 = 0) then Some v
              else dict_get counts k
  | None => dict_get counts k
  end.
Proof.
  unfold dict_wf, dict_keys. revert counts.
  induction defaults as [|[k0 v0] defaults IH]; intros counts Hnd; [done|].
  rewrite fmap_cons in Hnd. cbn [fst] in Hnd.
  apply NoDup_cons in Hnd as [Hk0 Hnd].
  cbn [foldl dict_get]. rewrite IH by done.
  unfold dict_get_or. rewrite !fill_default_get. cbn [fst snd].
  destruct (decide (k0 = k)) as [->|Hne].
  - assert (dict_get defaults k = None) as -> by by apply dict_get_None_keys.
    unfold dict_get_or. apply (f_equal (λ b : bool, if b then _ else _)).
    apply bool_decide_ext. by split; [intros [_ ?]|].
  - by rewrite (bool_decide_eq_false_2 (_ ∧ _)) by (by intros [? _]).
Qed.

Lemma fill_loop_wf (defaults : dict Z) counts :
  dict_wf counts → dict_wf (foldl fill_default counts defaults).
Proof.
  revert counts. induction defaults as [|kv defaults IH]; intros counts Hwf;
    [done|].
  cbn [foldl]. apply IH. unfold fill_default.
  case_bool_decide; [|done]. by apply dict_wf_set.
Qed.

Lemma ignored_not_allowed pos :
  pos ∈ ({[ "BN"; "IR"; "TAXI" ]}%string : gset string) →
  normalize_pos pos ∉ (list_to_set (dict_keys FIXED_REQUIRED) : gset string).
Proof.
  rewrite elem_of_list_to_set, !elem_of_union, !elem_of_singleton.
  intros [[->| ->]| ->]; vm_compute; intros H;
    repeat (apply elem_of_cons in H as [H|H]; [discriminate|]);
    by apply elem_of_nil in H.
Qed.

Lemma compute_required_from_league_get (lg : league) :
  let required := compute_required_from_league lg in
  let rp := default [] (roster_positions lg) in
  dict_wf required
  ∧ dict_keys required ≡ₚ dict_keys FIXED_REQUIRED
  ∧ Forall (λ kv, dict_get required kv.1 = Some (required_count rp kv.1 kv.2))
      FIXED_REQUIRED.
Proof.
  cbn zeta. unfold compute_required_from_league.
  set (rp := default [] (roster_positions lg)).
  set (ignore := ({[ "BN"; "IR"; "TAXI" ]}%string : gset string)).
  set (allowed := (list_to_set (dict_keys FIXED_REQUIRED) : gset string)).
  set (counts := foldl (count_slot ignore allowed) [] rp).
  assert (dict_wf FIXED_REQUIRED) as Hfixed.
  { apply (bool_decide_unpack _). vm_compute. exact I. }
  assert (dict_wf counts) as Hwf.
  { apply count_loop_wf. constructor. }
  assert (∀ k, k ∈ dict_keys counts → k ∈ dict_keys FIXED_REQUIRED) as Hkeys.
  { intros k Hk. apply count_loop_keys in Hk as [Hk|Hk].
    - by apply elem_of_nil in Hk.
    - by apply elem_of_list_to_set in Hk. }
  assert (∀ k v, dict_get FIXED_REQUIRED k = Some v →
            dict_get (foldl fill_default counts FIXED_REQUIRED) k =
            Some (required_count rp k v)) as Hget.
  { intros k v Hk. rewrite fill_loop_get, Hk by done.
    assert (dict_get_or counts k 0 = Z.of_nat (length (matching_slots rp k)))
      as Hcnt.
    { unfold counts. rewrite (count_loop_get ignore allowed).
      - cbn. lia.
      - apply ignored_not_allowed.
      - apply elem_of_list_to_set, dict_get_is_Some_keys. by eexists. }
    unfold required_count. cbn zeta. rewrite <- Hcnt.
    case_bool_decide as E; [done|].
    unfold dict_get_or in *. by destruct (dict_get counts k). }
  split_and!.
  - by apply fill_loop_wf.
  - apply NoDup_Permutation.
    + by apply fill_loop_wf.
    + apply Hfixed.
    + intros k. change (k ∈ dict_keys (foldl fill_default counts FIXED_REQUIRED)
                          ↔ k ∈ dict_keys FIXED_REQUIRED).
      rewrite <- !dict_get_is_Some_keys. split.
      * intros Hsome. destruct (dict_get FIXED_REQUIRED k) eqn:E; [by eexists|].
        rewrite fill_loop_get, E in Hsome by done.
        apply dict_get_is_Some_keys, Hkeys, dict_get_is_Some_keys in Hsome.
        rewrite E in Hsome. by destruct Hsome.
      * intros [v Hv]. rewrite (Hget k v Hv). by eexists.
  - apply Forall_forall. intros [k v] Hin. cbn [fst snd].
    apply Hget. by apply dict_elem_get.
Qed.

(** C9: the map returned by [compute_required_from_league] is a dictionary
    whose keys are the six positions QB, RB, WR, TE, DEF, K, each once; the
    count of each is the number of entries of [roster_positions] that
    normalize to it (BN, IR, TAXI and the flex slots normalize to none of
    the six) when there is one, and its fixed default otherwise. *)
Theorem compute_required_from_league_spec (lg : league) :
  let required := compute_required_from_league lg in
  let rp := default [] (roster_positions lg) in
  dict_wf required
  ∧ dict_keys required ≡ₚ ["QB"; "RB"; "WR"; "TE"; "DEF"; "K"]%string
  ∧ Forall (λ kv, dict_get required kv.1 = Some (required_count rp kv.1 kv.2))
      [("QB", 1); ("RB", 2); ("WR", 3); ("TE", 1); ("DEF", 1); ("K", 1)]%string.
Proof. exact (compute_required_from_league_get lg). Qed.

(** The counts of a league's map are positive, so the lineup computed for
    a league needs no assumption on [required]. *)
Lemma compute_required_from_league_positive (lg : league) pos need :
  dict_get (compute_required_from_league lg) pos = Some need → 0 < need.
Proof.
  intros Hget.
  destruct (compute_required_from_league_get lg) as (Hwf & Hkeys & Hall).
  cbn zeta in *.
  assert (pos ∈ dict_keys FIXED_REQUIRED) as Hin.
  { rewrite <- Hkeys. apply dict_get_is_Some_keys. by eexists. }
  apply list_elem_of_fmap in Hin as ([k v] & -> & Hin).
  rewrite Forall_forall in Hall. specialize (Hall _ Hin).
  cbn [fst snd] in *. rewrite Hall in Hget. injection Hget as <-.
  assert (0 < v) as Hv.
  { assert (Forall (λ kv, 0 < kv.2) FIXED_REQUIRED) as Hpos
      by (repeat constructor).
    rewrite Forall_forall in Hpos. apply (Hpos _ Hin). }
  unfold required_count. cbn zeta. case_bool_decide; lia.
Qed.

Lemma select_fixed_best_league_slots (lg : league) (players : list player)
    pos need :
  let required := compute_required_from_league lg in
  dict_get required pos = Some need →
  Z.of_nat (length (at_slot pos (select_fixed_best players required).1)) ≤ need.
Proof.
  cbn zeta. intros Hget. rewrite select_fixed_best_chosen.
  apply at_slot_count_le; [|done|].
  - apply (compute_required_from_league_get lg).
  - apply compute_required_from_league_positive in Hget. lia.
Qed.

(** A league with two QB slots, a D/ST slot, bench and flex. *)
Example compute_required_from_league_example :
  compute_required_from_league
    {| roster_positions :=
         Some ["QB"; "QB"; "FLEX"; "D/ST"; "BN"; "SUPER_FLEX"; "BN"]%string |} =
  [("QB", 2); ("DEF", 1); ("RB", 2); ("WR", 3); ("TE", 1); ("K", 1)]%string.
Proof. vm_compute. reflexivity. Qed.

(** *** Position aliases *)

Lemma normalize_pos_canonical (pos : string) :
  normalize_pos (normalize_pos pos) = normalize_pos pos
  ∧ dict_get POS_ALIAS (normalize_pos pos) = None.
Proof.
  unfold normalize_pos, dict_get_or, POS_ALIAS. cbn [dict_get].
  repeat (case_decide; subst; cbn [default dict_get]); try done;
    repeat (rewrite decide_False by done); done.
Qed.

(** Normalizing twice is normalizing once, and a normalized position is
    never one of the aliases: [build_player_meta_by_id] and
    [build_roster_pool] both normalize the same position. *)
Theorem normalize_pos_idempotent (pos : string) :
  normalize_pos (normalize_pos pos) = normalize_pos pos
  ∧ dict_get POS_ALIAS (normalize_pos pos) = None.
Proof. exact (normalize_pos_canonical pos). Qed.

(** *** The lineup takes the best players of each position *)

Lemma py_slice_to_take {A} (l : list A) (n : Z) :
  ∃ k : nat, py_slice_to l n = take k l.
Proof. unfold py_slice_to. destruct (bool_decide _); eauto. Qed.

(** A pool player at [pos] who outscores a player of the lineup at slot
    [pos] is in the lineup at that slot too. *)
Theorem select_fixed_best_takes_higher
    (players : list player) (required : dict Z) (pos : string)
    (s : slotted) (p : player) :
  dict_wf required →
  s ∈ at_slot pos (select_fixed_best players required).1 →
  p ∈ eligible players pos →
  (score (sl_player s) < score p)%Q →
  with_slot pos p ∈ at_slot pos (select_fixed_best players required).1.
Proof.
  intros Hwf Hs Hp Hlt. rewrite select_fixed_best_chosen in *.
  rewrite at_slot_bind in * by done.
  destruct (dict_get required pos) as [need|]; [|by apply elem_of_nil in Hs].
  unfold picks in *. cbn [fst snd] in *.
  destruct (py_slice_to_take (sort_desc score (eligible players pos)) need)
    as [k Hk].
  rewrite Hk in *. apply list_elem_of_fmap in Hs as (a & -> & Ha).
  cbn [sl_player with_slot] in Hlt.
  apply list_elem_of_fmap_2.
  pose proof (sort_desc_sorted score (eligible players pos)) as Hsorted.
  rewrite <- (take_drop k (sort_desc score (eligible players pos))) in Hsorted.
  rewrite <- (sort_desc_perm score), <- (take_drop k (sort_desc score _)) in Hp.
  apply elem_of_app in Hp as [Hp|Hp]; [done|].
  pose proof (StronglySorted_app_1_elem_of _ _ _ a p Hsorted Ha Hp) as Hge.
  unfold key_ge in Hge. lra.
Qed.

Global Instance player_inhabited : Inhabited player :=
  populate {| player_id := ""; player_name := ""; position := ""; score := 0 |}.

Lemma select_fixed_best_takes_higher_witness :
  with_slot "RB" (example_pool !!! 1%nat) ∈
    at_slot "RB" (select_fixed_best example_pool example_required).1.
Proof.
  assert (dict_wf example_required) as Hwf.
  { apply (bool_decide_unpack _). vm_compute. exact I. }
  apply (select_fixed_best_takes_higher example_pool example_required "RB"
           (with_slot "RB" (example_pool !!! 2%nat)) (example_pool !!! 1%nat) Hwf).
  - vm_compute. right. left.
  - vm_compute. left.
  - vm_compute. reflexivity.
Defined.

Global Instance Qeq_decision (a b : Q) : Decision (a == b)%Q := Qeq_dec a b.

Lemma filter_take_prefix {A} (P : A → Prop) `{!∀ x, Decision (P x)}
    (l : list A) (k : nat) :
  filter P (take k l) `prefix_of` filter P l.
Proof.
  rewrite <- (take_drop k l) at 2. rewrite filter_app. by eexists.
Qed.

(** Ties are broken by the order of the pool: of the pool's players at
    [pos] with one score, the lineup holds the first ones, in pool order. *)
Theorem select_fixed_best_ties_in_pool_order
    (players : list player) (required : dict Z) (pos : string) (q : Q) :
  dict_wf required →
  filter (λ p, (score p == q)%Q)
    (sl_player <$> at_slot pos (select_fixed_best players required).1)
  `prefix_of` filter (λ p, (score p == q)%Q) (eligible players pos).
Proof.
  intros Hwf. rewrite select_fixed_best_chosen, at_slot_bind by done.
  destruct (dict_get required pos) as [need|]; [|apply prefix_nil].
  unfold picks. cbn [fst snd]. rewrite sl_player_with_slot.
  destruct (py_slice_to_take (sort_desc score (eligible players pos)) need)
    as [k ->].
  rewrite <- (sort_desc_stable score (λ p, (score p == q)%Q) (eligible players pos)).
  - apply filter_take_prefix.
  - intros a b Ha Hb. by rewrite Ha, Hb.
Qed.

Lemma select_fixed_best_ties_in_pool_order_witness :
  filter (λ p, (score p == 15)%Q)
    (sl_player <$> at_slot "RB" (select_fixed_best example_pool example_required).1)
  `prefix_of` filter (λ p, (score p == 15)%Q) (eligible example_pool "RB").
Proof.
  apply select_fixed_best_ties_in_pool_order.
  apply (bool_decide_unpack _). vm_compute. exact I.
Defined.

(** *** Optimality without a sign condition *)

Lemma take_sorted_best_exact {A} (key : A → Q) (l m : list A) (k : nat) :
  StronglySorted (key_ge key) l →
  m ⊆+ l → length m = length (take k l) →
  (sumQ (key <$> m) <= sumQ (key <$> take k l))%Q.
Proof.
  intros Hs. revert m k.
  induction Hs as [|x l Hs IH Hx]; intros m k Hm Hlen.
  - apply submseteq_nil_r in Hm as ->. destruct k; apply Qle_refl.
  - destruct k as [|k].
    { destruct m; [apply Qle_refl|done]. }
    rewrite firstn_cons in *. rewrite sumQ_key_cons. cbn [length] in Hlen.
    apply submseteq_cons_r in Hm as [Hm|(m' & Hperm & Hm')].
    + destruct m as [|y m]; [done|].
      assert (key y <= key x)%Q as Hyx.
      { rewrite Forall_forall in Hx. apply Hx.
        eapply elem_of_submseteq; [left|exact Hm]. }
      assert (m ⊆+ l) as Hm'.
      { etrans; [|exact Hm]. by apply submseteq_cons. }
      pose proof (IH m k Hm' ltac:(cbn [length] in Hlen; lia)) as H0.
      rewrite sumQ_key_cons. lra.
    + assert (sumQ (key <$> m) == key x + sumQ (key <$> m'))%Q as ->.
      { rewrite <- sumQ_key_cons. apply sumQ_perm. by apply fmap_Permutation. }
      assert (length m' = length (take k l)) as Hlen'.
      { apply Permutation_length in Hperm. cbn [length] in Hperm. lia. }
      pose proof (IH m' k Hm' Hlen') as H0. lra.
Qed.

Lemma at_slot_rest (k pos : string) (sel : list slotted) :
  pos ≠ k → at_slot pos (filter (λ s, ¬ slot s = k) sel) = at_slot pos sel.
Proof.
  intros Hne. unfold at_slot. rewrite list_filter_filter.
  apply list_filter_iff. intros s. split; [by intros [? _]|].
  intros Hs. split; [done|congruence].
Qed.

(** A sum over a selection is the sum of its sums slot by slot. *)
Lemma bind_picks_le players (required : dict Z) :
  NoDup required.*1 →
  ∀ sel : list slotted,
    Forall (λ s, slot s ∈ required.*1) sel →
    Forall (λ pn, (sumQ (scores (at_slot pn.1 sel)) <=
                   sumQ (scores (picks players pn)))%Q) required →
    (sumQ (scores sel) <= sumQ (scores (required ≫= picks players)))%Q.
Proof.
  induction required as [|[k n] required IH]; intros Hnd sel Hslots Hle.
  - destruct sel as [|s sel]; [apply Qle_refl|].
    apply Forall_cons in Hslots as [Hs _]. by apply elem_of_nil in Hs.
  - rewrite fmap_cons in Hnd. cbn [fst] in Hnd.
    apply NoDup_cons in Hnd as [Hk Hnd].
    apply Forall_cons in Hle as [Hle_k Hle]. cbn [fst] in Hle_k.
    rewrite bind_cons. unfold scores at 2. rewrite fmap_app.
    fold (scores (picks players (k, n))).
    fold (scores (required ≫= picks players)).
    rewrite sumQ_app, (sumQ_scores_split (λ s, slot s = k) sel).
    fold (at_slot k sel).
    assert (sumQ (scores (filter (λ s, ¬ slot s = k) sel)) <=
            sumQ (scores (required ≫= picks players)))%Q as Hb.
    { apply IH; [done| |].
      - apply Forall_forall. intros s Hs.
        apply list_elem_of_filter in Hs as [Hsk Hs].
        rewrite Forall_forall in Hslots. specialize (Hslots s Hs).
        rewrite fmap_cons in Hslots. cbn [fst] in Hslots.
        by apply elem_of_cons in Hslots as [?|?].
      - apply Forall_forall. intros [pos need] Hin.
        rewrite Forall_forall in Hle. specialize (Hle _ Hin).
        cbn [fst] in *. rewrite at_slot_rest; [done|].
        intros ->. apply Hk. apply list_elem_of_fmap. by exists (k, need). }
    lra.
Qed.

(** Whatever the sign of the scores: a selection from the pool that puts
    in each slot of [required] as many players as the lineup does, each in
    the slot of its position, has scores whose exact sum is not larger than
    the exact sum of the scores of the lineup.  (The sums are those of the
    values, not the rounded float sums that [sum] returns.) *)
Theorem select_fixed_best_optimal_same_size
    (players : list player) (required : dict Z) (sel : list slotted) :
  dict_wf required →
  sl_player <$> sel ⊆+ players →
  Forall (λ s, position (sl_player s) = slot s
               ∧ dict_mem required (slot s) = true) sel →
  Forall (λ pn, length (at_slot pn.1 sel) =
                length (at_slot pn.1 (select_fixed_best players required).1))
    required →
  (sumQ (scores sel) <= sumQ (scores (select_fixed_best players required).1))%Q.
Proof.
  intros Hwf Hsub Hslots Hcnt.
  rewrite select_fixed_best_chosen in *.
  apply bind_picks_le; [done| |].
  - eapply Forall_impl; [exact Hslots|]. intros s [_ Hmem].
    apply bool_decide_eq_true in Hmem. by apply dict_get_is_Some_keys.
  - apply Forall_forall. intros [pos need] Hin.
    rewrite Forall_forall in Hcnt. specialize (Hcnt _ Hin). cbn [fst] in *.
    rewrite at_slot_bind, (dict_elem_get _ _ _ Hwf Hin) in Hcnt by done.
    unfold picks in *. cbn [fst snd] in *.
    rewrite scores_with_slot, scores_players.
    rewrite length_fmap in Hcnt.
    destruct (py_slice_to_take (sort_desc score (eligible players pos)) need)
      as [k Hk].
    rewrite Hk in *.
    apply take_sorted_best_exact; [apply sort_desc_sorted| |by rewrite length_fmap].
    rewrite sort_desc_perm.
    assert (sl_player <$> at_slot pos sel =
            filter (λ p, position p = pos) (sl_player <$> at_slot pos sel)) as ->.
    { symmetry. apply filter_all, Forall_fmap, Forall_forall.
      intros s Hs. apply list_elem_of_filter in Hs as [Hsk Hs].
      rewrite Forall_forall in Hslots. cbn.
      destruct (Hslots s Hs) as [-> _]. done. }
    apply filter_submseteq_mono. etrans; [|exact Hsub].
    apply fmap_submseteq, sublist_submseteq, sublist_filter.
Qed.

(** A pool with scores below zero, and the selection of its weaker RB. *)
Definition negative_pool : list player :=
  [ {| player_id := "7"; player_name := "g"; position := "K"; score := -2 |};
    {| player_id := "8"; player_name := "h"; position := "K"; score := -1 |} ]%string%Q.

Definition kicker_required : dict Z := [("K", 1)]%string.

Lemma select_fixed_best_optimal_same_size_witness :
  (sumQ (scores [with_slot "K" (negative_pool !!! 0%nat)]) <=
   sumQ (scores (select_fixed_best negative_pool kicker_required).1))%Q.
Proof.
  apply select_fixed_best_optimal_same_size.
  - apply (bool_decide_unpack _). vm_compute. exact I.
  - cbn. apply sublist_submseteq. repeat constructor.
  - repeat constructor.
  - repeat constructor.
Defined.

(** *** The lineup is a selection from the pool *)

Lemma filter_disjoint_app {A} (P Q : A → Prop)
    `{!∀ x, Decision (P x), !∀ x, Decision (Q x)} (l : list A) :
  (∀ x, P x → Q x → False) →
  filter P l ++ filter Q l ≡ₚ filter (λ x, P x ∨ Q x) l.
Proof.
  intros Hdisj. induction l as [|x l IH]; [done|].
  rewrite !filter_cons.
  destruct (decide (P x)) as [HP|HP], (decide (Q x)) as [HQ|HQ].
  - destruct (Hdisj x HP HQ).
  - rewrite decide_True by (by left). cbn. by rewrite IH.
  - rewrite decide_True by (by right).
    rewrite <- Permutation_middle. by rewrite IH.
  - rewrite decide_False by (by intros [?|?]). done.
Qed.

Lemma bind_picks_submseteq players (required : dict Z) :
  NoDup required.*1 →
  sl_player <$> (required ≫= picks players) ⊆+
  filter (λ p, position p ∈ required.*1) players.
Proof.
  induction required as [|[k n] required IH]; intros Hnd.
  - apply submseteq_nil_l.
  - rewrite fmap_cons in *. cbn [fst] in *.
    apply NoDup_cons in Hnd as [Hk Hnd].
    rewrite bind_cons, fmap_app.
    trans (filter (λ p, position p = k) players ++
           filter (λ p, position p ∈ required.*1) players).
    + apply submseteq_app; [|by apply IH].
      unfold picks. cbn [fst snd]. rewrite sl_player_with_slot.
      trans (sort_desc score (eligible players k)).
      * apply sublist_submseteq, py_slice_to_sublist.
      * by rewrite sort_desc_perm.
    + rewrite filter_disjoint_app by (by intros p -> ?).
      assert (filter (λ p, position p = k ∨ position p ∈ required.*1) players =
              filter (λ p, position p ∈ k :: required.*1) players) as ->; [|done].
      apply list_filter_iff. intros p. rewrite elem_of_cons. naive_solver.
Qed.

Lemma picks_valid (players : list player) (required : dict Z) :
  dict_wf required →
  Forall (λ pn, 0 ≤ pn.2) required →
  valid_selection players required (required ≫= picks players).
Proof.
  intros Hwf Hneed. unfold valid_selection. split_and!.
  - etrans; [by apply bind_picks_submseteq|].
    apply sublist_submseteq, sublist_filter.
  - apply Forall_forall. intros s Hs.
    apply list_elem_of_bind in Hs as ([pos need] & Hs & Hin).
    apply picks_eligible in Hs as (-> & -> & _). split; [done|].
    by apply (dict_mem_elem _ _ need).
  - apply Forall_forall. intros [pos need] Hin. cbn [fst snd].
    rewrite Forall_forall in Hneed.
    apply at_slot_count_le; [done|by apply dict_elem_get|].
    apply (Hneed _ Hin).
Qed.

(** The lineup is itself a selection that respects the slots: it takes no
    pool entry more often than the pool holds it, each player stands in the
    slot of its position, and no position gets more players than its
    count. *)
Theorem select_fixed_best_valid (players : list player) (required : dict Z) :
  dict_wf required →
  Forall (λ pn, 0 ≤ pn.2) required →
  valid_selection players required (select_fixed_best players required).1.
Proof.
  intros Hwf Hneed. rewrite select_fixed_best_chosen. by apply picks_valid.
Qed.

Lemma select_fixed_best_valid_witness :
  valid_selection example_pool example_required
    (select_fixed_best example_pool example_required).1.
Proof.
  apply select_fixed_best_valid.
  - apply (bool_decide_unpack _). vm_compute. exact I.
  - repeat constructor; vm_compute; discriminate.
Defined.

(** *** The lineup is optimal, up to the rounding of the total *)








(** The lineup has at most as many players as [required] has slots. *)
Theorem select_fixed_best_size (players : list player) (required : dict Z) :
  Forall (λ pn, 0 ≤ pn.2) required →
  Z.of_nat (length (select_fixed_best players required).1) ≤
  foldr (λ pn acc, pn.2 + acc) 0 required.
Proof.
  intros Hneed. rewrite select_fixed_best_chosen.
  induction Hneed as [|[pos need] required Hn _ IH]; [done|].
  rewrite bind_cons, length_app. cbn [foldr snd] in *.
  unfold picks at 1. cbn [fst snd]. rewrite length_fmap.
  pose proof (py_slice_to_length_le
                (sort_desc score (eligible players pos)) need Hn).
  lia.
Qed.

Lemma select_fixed_best_size_witness :
  Z.of_nat (length (select_fixed_best example_pool FIXED_REQUIRED).1) ≤ 9.
Proof.
  apply (select_fixed_best_size example_pool FIXED_REQUIRED).
  repeat constructor; vm_compute; discriminate.
Defined.

(** *** The pool of a roster *)

(** An entry of [player_meta_by_id], the table that
    [build_player_meta_by_id] returns. *)
Record player_meta := { full_name : string; meta_position : string }.

(** The part of a matchup entry that the script reads:
    [m.get("roster_id")], [m.get("players")] and [m.get("players_points")],
    absent or [null] as [None]; a score of the map may be [null] too. *)
Record matchup_entry := {
  me_roster_id : option Z;
  me_players : option (list string);
  me_players_points : option (gmap string (option Q))
}.

(** [x or y] on strings: the empty string counts as false. *)
Definition str_or (x y : string) : string :=
  if decide (x = ""%string) then y else x.

(** [float(points_map.get(pid, 0.0) or 0.0)]: a missing, [null] or zero
    score is [0.0]. *)
Definition score_of (points_map : gmap string (option Q)) (pid : string) : Q :=
  match points_map !! pid with
  | Some (Some q) => if Qeq_bool q 0 then 0%Q else q
  | _ => 0%Q
  end.

Definition build_roster_pool (matchup_entry : matchup_entry)
    (player_meta_by_id : gmap string player_meta) : list player :=
  let pids := default [] (me_players matchup_entry) in
  let points_map := default ∅ (me_players_points matchup_entry) in
  (λ pid,
     let meta := player_meta_by_id !! pid in
     {| player_id := pid;
        player_name := from_option (λ m, str_or (full_name m) pid) pid meta;
        position :=
          normalize_pos (from_option (λ m, str_or (meta_position m) "") ""%string meta);
        score := score_of points_map pid |}) <$> pids.

Lemma NoDup_submseteq_inv {A} (l k : list A) : l ⊆+ k → NoDup k → NoDup l.
Proof.
  intros Hsub Hnd. apply submseteq_sublist_r in Hsub as (l' & Hperm & Hsubl).
  rewrite Hperm. by eapply sublist_NoDup.
Qed.

(** The pool lists the rostered players in their order; its positions are
    normalized (never an alias); a player without a score in the entry
    (absent or [null]) has score 0; a player that the table does not know has
    the empty position and its id for a name. *)
Theorem build_roster_pool_spec (m : matchup_entry)
    (player_meta_by_id : gmap string player_meta) :
  let pool := build_roster_pool m player_meta_by_id in
  let points_map := default ∅ (me_players_points m) in
  player_id <$> pool = default [] (me_players m)
  ∧ Forall (λ p,
      normalize_pos (position p) = position p
      ∧ dict_get POS_ALIAS (position p) = None
      ∧ ((∀ q, points_map !! player_id p ≠ Some (Some q)) → score p = 0%Q)
      ∧ (player_meta_by_id !! player_id p = None →
         position p = ""%string ∧ player_name p = player_id p)) pool.
Proof.
  cbn zeta. unfold build_roster_pool. split.
  - rewrite <- list_fmap_compose. apply list_fmap_id.
  - apply Forall_fmap, Forall_forall. intros pid _. cbn.
    split_and!; try apply normalize_pos_canonical.
    + intros Hq. unfold score_of.
      destruct (_ !! pid) as [[q|]|] eqn:E; try done. by destruct (Hq q).
    + by intros ->.
Qed.

(** The lineup of a roster holds rostered players only, and when the
    entry lists each player once, no player is in the lineup twice. *)
Theorem roster_lineup_from_roster (m : matchup_entry)
    (player_meta_by_id : gmap string player_meta) (required : dict Z) :
  let lineup :=
    (select_fixed_best (build_roster_pool m player_meta_by_id) required).1 in
  let ids := (λ s, player_id (sl_player s)) <$> lineup in
  ids ⊆ default [] (me_players m)
  ∧ (dict_wf required → NoDup (default [] (me_players m)) → NoDup ids).
Proof.
  cbn zeta. rewrite select_fixed_best_chosen.
  assert (player_id <$> build_roster_pool m player_meta_by_id =
          default [] (me_players m)) as Hids.
  { unfold build_roster_pool. rewrite <- list_fmap_compose. apply list_fmap_id. }
  rewrite (list_fmap_compose sl_player player_id). split.
  - intros pid Hpid. apply list_elem_of_fmap in Hpid as (p & -> & Hp).
    apply list_elem_of_fmap in Hp as (s & -> & Hs).
    apply list_elem_of_bind in Hs as (pn & Hs & _).
    apply picks_eligible in Hs as (_ & _ & Hin).
    rewrite <- Hids. by apply list_elem_of_fmap_2.
  - intros Hwf Hnd. eapply NoDup_submseteq_inv; [|exact Hnd].
    rewrite <- Hids. apply fmap_submseteq.
    etrans; [by apply bind_picks_submseteq|].
    apply sublist_submseteq, sublist_filter.
Qed.

(** A roster entry: two known players, one unknown, one score missing. *)
Definition example_entry : matchup_entry :=
  {| me_roster_id := Some 4;
     me_players := Some ["11"; "12"; "13"]%string;
     me_players_points :=
       Some {[ "11"%string := Some 12.5%Q; "13"%string := None ]} |}.

Definition example_meta : gmap string player_meta :=
  {[ "11"%string := {| full_name := "Ann"; meta_position := "PK" |};
     "12"%string := {| full_name := ""; meta_position := "DST" |} ]}.

Example build_roster_pool_example :
  build_roster_pool example_entry example_meta =
  [ {| player_id := "11"; player_name := "Ann"; position := "K"; score := 12.5 |};
    {| player_id := "12"; player_name := "12"; position := "DEF"; score := 0 |};
    {| player_id := "13"; player_name := "13"; position := ""; score := 0 |} ]%string%Q.
Proof. vm_compute. reflexivity. Qed.

Lemma roster_lineup_from_roster_witness :
  NoDup ((λ s, player_id (sl_player s)) <$>
           (select_fixed_best (build_roster_pool example_entry example_meta)
              FIXED_REQUIRED).1).
Proof.
  apply (proj2 (roster_lineup_from_roster example_entry example_meta FIXED_REQUIRED)).
  - apply (bool_decide_unpack _). vm_compute. exact I.
  - apply (bool_decide_unpack _). vm_compute. exact I.
Defined.

(** *** The best roster of a week *)

(** A user and a roster of the league, with the keys the script reads,
    absent or [null] as [None]; [team_name] is [metadata.team_name]. *)
Record user := {
  user_id : option string;
  team_name : option string;
  display_name : option string;
  username : option string
}.

Record roster := { roster_id : option Z; owner_id : option string }.

(** [x or y] on optional strings: [None] and the empty string are false. *)
Definition opt_or (x y : option string) : option string :=
  match x with
  | Some s => if decide (s = ""%string) then y else Some s
  | None => y
  end.

(** [owner_name_lookup]: only looked up afterwards. *)
Definition owner_name_lookup (users : list user)
    : gmap (option string) (option string) :=
  foldl (λ out u,
           let uid := user_id u in
           let tname := default ""%string (team_name u) in
           let display := opt_or (display_name u) (opt_or (username u) uid) in
           <[uid := if decide (tname = ""%string) then display else Some tname]> out)
    ∅ users.

(** [out[k] = v] on an insertion-ordered dictionary with any keys. *)
Fixpoint assoc_set {K V} `{EqDecision K} (d : list (K * V)) (k : K) (v : V)
    : list (K * V) :=
  match d with
  | [] => [(k, v)]
  | (k', v') :: d' =>
      if decide (k' = k) then (k', v) :: d' else (k', v') :: assoc_set d' k v
  end.

(** [roster_owner_lookup]: iterated over afterwards, in insertion order. *)
Definition roster_owner_lookup (rosters : list roster)
    : list (option Z * string) :=
  foldl (λ out r, assoc_set out (roster_id r) (default ""%string (owner_id r)))
    [] rosters.

(** [matchup_by_rid]: the entries by roster id, a later entry replacing an
    earlier one; entries without a roster id are left out. *)
Definition index_matchups (matchups : list matchup_entry)
    : gmap Z matchup_entry :=
  foldl (λ by_rid m,
           match me_roster_id m with
           | Some rid => <[rid := m]> by_rid
           | None => by_rid
           end) ∅ matchups.

(** The owner name of a result: a value of [name_by_user], or
    [f"Roster {rid}"]. *)
Inductive owner_label := OwnerName (name : option string) | RosterLabel (rid : Z).

Record team_result := {
  tr_roster_id : Z;
  tr_owner_name : owner_label;
  tr_total : Q;
  tr_lineup : list slotted
}.

Record best_roster := {
  best_roster_id : option Z;
  best_owner_name : owner_label;
  best_total : Q;
  best_lineup : list slotted
}.

(** The initial [best]. *)
Definition no_best : best_roster :=
  {| best_roster_id := None; best_owner_name := OwnerName (Some ""%string);
     best_total := -1; best_lineup := [] |}.

(** [best.update({...})] *)
Definition as_best (r : team_result) : best_roster :=
  {| best_roster_id := Some (tr_roster_id r);
     best_owner_name := tr_owner_name r;
     best_total := tr_total r;
     best_lineup := tr_lineup r |}.

(** The result of one roster of [owner_by_roster]; [None] is [continue]. *)
Definition roster_result (required : dict Z)
    (name_by_user : gmap (option string) (option string))
    (matchup_by_rid : gmap Z matchup_entry)
    (meta_by_id : gmap string player_meta)
    (ro : option Z * string) : option team_result :=
  rid ← ro.1;
  m ← matchup_by_rid !! rid;
  let pool := build_roster_pool m meta_by_id in
  let chosen := select_fixed_best pool required in
  Some {| tr_roster_id := rid;
          tr_owner_name :=
            match name_by_user !! Some ro.2 with
            | Some name => OwnerName name
            | None => RosterLabel rid
            end;
          tr_total := chosen.2;
          tr_lineup := chosen.1 |}.

(** [if total > best["total"]: best.update(...)] *)
Definition better (best : best_roster) (r : team_result) : best_roster :=
  if Qlt_le_dec (best_total best) (tr_total r) then as_best r else best.

(** The body of [for rid, owner_id in owner_by_roster.items()]. *)
Definition roster_step (required : dict Z)
    (name_by_user : gmap (option string) (option string))
    (matchup_by_rid : gmap Z matchup_entry)
    (meta_by_id : gmap string player_meta)
    (acc : best_roster * list team_result) (ro : option Z * string)
    : best_roster * list team_result :=
  match roster_result required name_by_user matchup_by_rid meta_by_id ro with
  | None => acc
  | Some r => (better acc.1 r, acc.2 ++ [r])
  end.

(** [find_top_roster_for_week], given what the calls return; [meta_by_id]
    is the table that [build_player_meta_by_id] returns for the player
    directory. *)
Definition find_top_roster_for_week (lg : league) (users : list user)
    (rosters : list roster) (matchups : list matchup_entry)
    (meta_by_id : gmap string player_meta)
    : best_roster * list team_result * dict Z :=
  let required := compute_required_from_league lg in
  let name_by_user := owner_name_lookup users in
  let owner_by_roster := roster_owner_lookup rosters in
  let matchup_by_rid := index_matchups matchups in
  (foldl (roster_step required name_by_user matchup_by_rid meta_by_id)
     (no_best, []) owner_by_roster,
   required).

Lemma roster_loop_split required name_by_user matchup_by_rid meta_by_id
    (acc : best_roster * list team_result) (l : list (option Z * string)) :
  foldl (roster_step required name_by_user matchup_by_rid meta_by_id) acc l =
  let rs := omap (roster_result required name_by_user matchup_by_rid meta_by_id) l in
  (foldl better acc.1 rs, acc.2 ++ rs).
Proof.
  cbn zeta. revert acc. induction l as [|ro l IH]; intros [b rs]; cbn [foldl omap list_omap].
  - by rewrite app_nil_r.
  - rewrite IH. unfold roster_step.
    destruct (roster_result _ _ _ _ ro) as [r|]; cbn [fst snd foldl]; [|done].
    by rewrite <- (assoc (++)).
Qed.

(** What the loop keeps in [best]. *)
Definition best_of (best : best_roster) (rs : list team_result) : Prop :=
  (best = no_best ∧ Forall (λ r, (tr_total r <= -1)%Q) rs)
  ∨ (∃ pre r post,
       rs = pre ++ r :: post ∧ best = as_best r
       ∧ (-1 < tr_total r)%Q
       ∧ Forall (λ x, (tr_total x < tr_total r)%Q) pre
       ∧ Forall (λ x, (tr_total x <= tr_total r)%Q) post).

Lemma better_best_of (rs : list team_result) :
  best_of (foldl better no_best rs) rs.
Proof.
  induction rs as [|r rs IH] using rev_ind.
  - left. by split.
  - rewrite foldl_app. cbn [foldl].
    destruct IH as [[-> Hall]|(pre & r0 & post & -> & -> & Hr0 & Hpre & Hpost)];
      unfold better.
    + destruct (Qlt_le_dec (best_total no_best) (tr_total r)) as [Hlt|Hle].
      * right. exists rs, r, []. split_and!; [done|done|exact Hlt| |constructor].
        eapply Forall_impl; [exact Hall|]. cbn in Hlt. intros x Hx. cbn beta in Hx. lra.
      * left. split; [done|]. apply Forall_app. split; [done|].
        constructor; [exact Hle|constructor].
    + cbn [best_total as_best].
      destruct (Qlt_le_dec (tr_total r0) (tr_total r)) as [Hlt|Hle].
      * right. exists (pre ++ r0 :: post), r, [].
        split_and!; [done|done|lra| |constructor].
        apply Forall_app. split; [|constructor; [done|]].
        -- eapply Forall_impl; [exact Hpre|]. intros x Hx. cbn beta in Hx. lra.
        -- eapply Forall_impl; [exact Hpost|]. intros x Hx. cbn beta in Hx. lra.
      * right. exists pre, r0, (post ++ [r]).
        split_and!; [by rewrite <- (assoc (++))|done|done|done|].
        apply Forall_app. split; [done|]. constructor; [exact Hle|constructor].
Qed.

(** The roster kept as best has the largest total of all results, and is
    the first result with that total; no roster is kept exactly when no
    total is above -1, the total that [best] starts with. *)
Theorem find_top_roster_for_week_best (lg : league) (users : list user)
    (rosters : list roster) (matchups : list matchup_entry)
    (meta_by_id : gmap string player_meta) :
  let best := (find_top_roster_for_week lg users rosters matchups meta_by_id).1.1 in
  let results := (find_top_roster_for_week lg users rosters matchups meta_by_id).1.2 in
  Forall (λ r, (tr_total r <= best_total best)%Q) results
  ∧ (best_roster_id best = None ↔ Forall (λ r, (tr_total r <= -1)%Q) results)
  ∧ (is_Some (best_roster_id best) →
     ∃ pre r post,
       results = pre ++ r :: post ∧ best = as_best r
       ∧ Forall (λ x, (tr_total x < tr_total r)%Q) pre).
Proof.
  cbn zeta. unfold find_top_roster_for_week. cbn [fst snd].
  rewrite roster_loop_split. cbn [fst snd app].
  set (rs := omap _ _).
  destruct (better_best_of rs)
    as [[-> Hall]|(pre & r & post & Hrs & -> & Hr & Hpre & Hpost)].
  - split_and!; [done|done|]. by intros [? ?].
  - split_and!.
    + rewrite Hrs. apply Forall_app. split; [|constructor; [apply Qle_refl|done]].
      eapply Forall_impl; [exact Hpre|]. intros x Hx. cbn in *. lra.
    + split; [done|]. intros Hall. rewrite Hrs in Hall.
      apply Forall_app in Hall as [_ Hall].
      apply Forall_cons in Hall as [Hle _]. lra.
    + intros _. by exists pre, r, post.
Qed.

(** Two rosters with an entry each, and one roster without. *)
Definition example_rosters : list roster :=
  [ {| roster_id := Some 4; owner_id := Some "u4"%string |};
    {| roster_id := Some 5; owner_id := None |};
    {| roster_id := Some 6; owner_id := Some "u6"%string |} ].

Definition example_users : list user :=
  [ {| user_id := Some "u4"%string; team_name := Some ""%string;
       display_name := Some "ann"%string; username := None |} ].

Definition example_matchups : list matchup_entry :=
  [ example_entry;
    {| me_roster_id := Some 6;
       me_players := Some ["12"]%string;
       me_players_points := Some {[ "12"%string := Some 20%Q ]} |} ].

Example find_top_roster_for_week_example :
  let res := find_top_roster_for_week {| roster_positions := None |}
               example_users example_rosters example_matchups example_meta in
  best_roster_id res.1.1 = Some 6
  ∧ best_owner_name res.1.1 = RosterLabel 6
  ∧ best_total res.1.1 = 20%Q
  ∧ tr_roster_id <$> res.1.2 = [4; 6]
  ∧ tr_owner_name <$> res.1.2 = [OwnerName (Some "ann"%string); RosterLabel 6].
Proof. vm_compute. by split_and!. Qed.

Lemma find_top_roster_for_week_best_witness :
  ∃ pre r post,
    (find_top_roster_for_week {| roster_positions := None |}
       example_users example_rosters example_matchups example_meta).1.2 =
    pre ++ r :: post
    ∧ (find_top_roster_for_week {| roster_positions := None |}
         example_users example_rosters example_matchups example_meta).1.1 =
      as_best r
    ∧ Forall (λ x, (tr_total x < tr_total r)%Q) pre.
Proof.
  apply (proj2 (proj2 (find_top_roster_for_week_best {| roster_positions := None |}
           example_users example_rosters example_matchups example_meta))).
  vm_compute. by eexists.
Defined.

Lemma assoc_set_keys {K V} `{EqDecision K} (d : list (K * V)) (k : K) (v : V) :
  (assoc_set d k v).*1 = if decide (k ∈ d.*1) then d.*1 else d.*1 ++ [k].
Proof.
  induction d as [|[k0 v0] d IH]; [done|].
  cbn [assoc_set]. rewrite !fmap_cons. cbn [fst].
  destruct (decide (k0 = k)) as [->|Hne].
  - rewrite decide_True by left. done.
  - rewrite fmap_cons, IH. cbn [fst]. destruct (decide (k ∈ d.*1)) as [Hin|Hin].
    + rewrite decide_True by (by right). done.
    + rewrite decide_False; [done|]. by intros [?|?]%elem_of_cons.
Qed.

Lemma roster_owner_lookup_keys (rosters : list roster) :
  NoDup (roster_owner_lookup rosters).*1
  ∧ ∀ k, k ∈ (roster_owner_lookup rosters).*1 → k ∈ roster_id <$> rosters.
Proof.
  unfold roster_owner_lookup.
  induction rosters as [|r rosters IH] using rev_ind.
  - split; [constructor|]. by intros k Hk%elem_of_nil.
  - rewrite foldl_app. cbn [foldl]. rewrite assoc_set_keys, fmap_app.
    destruct IH as [Hnd Hsub]. case_decide as Hin.
    + split; [done|]. intros k Hk. apply elem_of_app. left. by apply Hsub.
    + split.
      * apply NoDup_app. split_and!; [done| |apply NoDup_singleton].
        by intros k Hk ->%list_elem_of_singleton.
      * intros k [Hk|Hk]%elem_of_app; apply elem_of_app; [left; by apply Hsub|].
        by right.
Qed.

Lemma index_matchups_lookup (matchups : list matchup_entry) rid m :
  index_matchups matchups !! rid = Some m →
  m ∈ matchups ∧ me_roster_id m = Some rid.
Proof.
  unfold index_matchups. induction matchups as [|m0 matchups IH] using rev_ind.
  - cbn [foldl]. by rewrite lookup_empty.
  - rewrite foldl_app. cbn [foldl]. destruct (me_roster_id m0) as [rid0|] eqn:E.
    + rewrite lookup_insert. case_decide as Hrid.
      * intros [= <-]. subst. split; [|done]. apply elem_of_app. right. left.
      * intros H. destruct (IH H) as [? ?]. split; [|done].
        apply elem_of_app. by left.
    + intros H. destruct (IH H) as [? ?]. split; [|done]. apply elem_of_app. by left.
Qed.

Lemma roster_result_Some required name_by_user matchup_by_rid meta_by_id ro r :
  roster_result required name_by_user matchup_by_rid meta_by_id ro = Some r →
  ro.1 = Some (tr_roster_id r)
  ∧ ∃ m, matchup_by_rid !! tr_roster_id r = Some m
         ∧ (tr_lineup r, tr_total r) =
           select_fixed_best (build_roster_pool m meta_by_id) required.
Proof.
  unfold roster_result. destruct ro as [[rid|] owner]; cbn; [|done].
  destruct (matchup_by_rid !! rid) as [m|] eqn:E; cbn; [|done].
  intros [= <-]. cbn. split; [done|]. exists m. split; [done|]. reflexivity.
Qed.

Lemma roster_results_NoDup required name_by_user matchup_by_rid meta_by_id
    (l : list (option Z * string)) :
  NoDup l.*1 →
  NoDup (tr_roster_id <$>
           omap (roster_result required name_by_user matchup_by_rid meta_by_id) l).
Proof.
  induction l as [|ro l IH]; intros Hnd; [constructor|].
  rewrite fmap_cons in Hnd. apply NoDup_cons in Hnd as [Hro Hnd].
  cbn [omap list_omap].
  destruct (roster_result _ _ _ _ ro) as [r|] eqn:E; [|by apply IH].
  rewrite fmap_cons. apply NoDup_cons. split; [|by apply IH].
  intros Hin. apply list_elem_of_fmap in Hin as (r' & Hid & Hr').
  apply list_elem_of_omap in Hr' as (ro' & Hro' & E').
  apply roster_result_Some in E as [Ek _]. apply roster_result_Some in E' as [Ek' _].
  apply Hro. apply list_elem_of_fmap. exists ro'. split; [congruence|done].
Qed.

(** The results: each roster id has at most one result, also when the API
    lists a roster twice; a result belongs to a listed roster and to a
    matchup entry of that roster, and its lineup and total are those that
    [select_fixed_best] computes for the pool of that entry with the league's
    slots. *)
Theorem find_top_roster_for_week_results (lg : league) (users : list user)
    (rosters : list roster) (matchups : list matchup_entry)
    (meta_by_id : gmap string player_meta) :
  let results := (find_top_roster_for_week lg users rosters matchups meta_by_id).1.2 in
  NoDup (tr_roster_id <$> results)
  ∧ Forall (λ r,
      Some (tr_roster_id r) ∈ roster_id <$> rosters
      ∧ ∃ m, m ∈ matchups ∧ me_roster_id m = Some (tr_roster_id r)
             ∧ (tr_lineup r, tr_total r) =
               select_fixed_best (build_roster_pool m meta_by_id)
                 (compute_required_from_league lg)) results.
Proof.
  cbn zeta. unfold find_top_roster_for_week. cbn [fst snd].
  rewrite roster_loop_split. cbn [fst snd app].
  destruct (roster_owner_lookup_keys rosters) as [Hnd Hsub]. split.
  - by apply roster_results_NoDup.
  - apply Forall_forall. intros r Hr.
    apply list_elem_of_omap in Hr as (ro & Hro & E).
    apply roster_result_Some in E as (Ek & m & Hm & Hsel).
    apply index_matchups_lookup in Hm as [Hin Hrid]. split.
    + apply Hsub. rewrite <- Ek. by apply list_elem_of_fmap_2.
    + by exists m.
Qed.

Lemma select_fixed_best_league_slots_witness :
  dict_get (compute_required_from_league {| roster_positions := None |}) "WR" = Some 3
  ∧ Z.of_nat (length (at_slot "WR"
       (select_fixed_best example_pool
          (compute_required_from_league {| roster_positions := None |})).1)) ≤ 3.
Proof.
  split; [reflexivity|].
  apply (select_fixed_best_league_slots {| roster_positions := None |}
           example_pool "WR" 3).
  reflexivity.
Defined.

(** A league that names none of the six positions (only bench, flex or
    unknown slots, or no [roster_positions] at all) gets the fixed map, in
    its order. *)
Theorem compute_required_from_league_fallback (lg : league) :
  Forall (λ pos, normalize_pos pos ∉ dict_keys FIXED_REQUIRED)
    (default [] (roster_positions lg)) →
  compute_required_from_league lg = FIXED_REQUIRED.
Proof.
  intros Hnone. unfold compute_required_from_league.
  set (rp := default [] (roster_positions lg)) in *.
  assert (foldl (count_slot {[ "BN"; "IR"; "TAXI" ]}%string
                   (list_to_set (dict_keys FIXED_REQUIRED))) [] rp = []) as ->;
    [|reflexivity].
  induction Hnone as [|pos rp Hpos _ IH]; [done|].
  cbn [foldl]. unfold count_slot at 2.
  case_bool_decide; [exact IH|].
  rewrite bool_decide_eq_false_2; [exact IH|].
  by rewrite elem_of_list_to_set.
Qed.

Lemma compute_required_from_league_fallback_witness :
  compute_required_from_league
    {| roster_positions := Some ["BN"; "FLEX"; "SUPER_FLEX"; "IR"]%string |} =
  FIXED_REQUIRED.
Proof.
  apply compute_required_from_league_fallback.
  repeat constructor; vm_compute; intros H;
    repeat (apply elem_of_cons in H as [H|H]; [discriminate|]);
    by apply elem_of_nil in H.
Defined.

(** *** [get_json]: a fixed number of attempts *)

(** What one GET of the URL comes to: the parsed document, or the
    exception that [requests.get], [raise_for_status] or [json] raised. *)
Inductive response (A : Type) := Ok (a : A) | Failed (e : string).
Global Arguments Ok {A} a.
Global Arguments Failed {A} e.

(** How [get_json] ends: it returns the document, or raises
    [RuntimeError] with the last exception ([None] when no attempt was made). *)
Inductive get_json_result (A : Type) :=
| Returned (a : A)
| RuntimeError (last : option string).
Global Arguments Returned {A} a.
Global Arguments RuntimeError {A} last.

(** The loop [for i in range(retries)], attempt [i] being the next one;
    [sleeps] counts the calls of [time.sleep]. *)
Fixpoint get_json_loop {A} (responses : nat → response A) (i : nat)
    (remaining : nat) (last : option string) (sleeps : nat)
    : get_json_result A * nat :=
  match remaining with
  | O => (RuntimeError last, sleeps)
  | S remaining' =>
      match responses i with
      | Ok a => (Returned a, sleeps)
      | Failed e =>
          get_json_loop responses (S i) remaining' (Some e) (S sleeps)
      end
  end.

(** [get_json(url, retries)], [responses i] being what the attempt number
    [i] (from 0) comes to: the result and the number of sleeps. *)
Definition get_json {A} (responses : nat → response A) (retries : Z)
    : get_json_result A * nat :=
  get_json_loop responses 0 (Z.to_nat retries) None 0.

Lemma get_json_loop_spec {A} (responses : nat → response A)
    (i remaining : nat) (last : option string) :
  match get_json_loop responses i remaining last i with
  | (Returned a, sleeps) =>
      (i ≤ sleeps < i + remaining)%nat ∧ responses sleeps = Ok a
      ∧ ∀ j, (i ≤ j < sleeps)%nat → ∃ e, responses j = Failed e
  | (RuntimeError last', sleeps) =>
      sleeps = (i + remaining)%nat
      ∧ (∀ j, (i ≤ j < sleeps)%nat → ∃ e, responses j = Failed e)
      ∧ match remaining with
        | O => last' = last
        | S k => ∃ e, responses (i + k)%nat = Failed e ∧ last' = Some e
        end
  end.
Proof.
  revert i last. induction remaining as [|remaining IH]; intros i last.
  - cbn. split_and!; [lia| |done]. intros j Hj. lia.
  - cbn [get_json_loop]. destruct (responses i) as [a|e] eqn:E.
    + split_and!; [lia|lia|done|]. intros j Hj. lia.
    + specialize (IH (S i) (Some e)).
      destruct (get_json_loop responses (S i) remaining (Some e) (S i))
        as [[a|last'] sleeps].
      * destruct IH as (Hs & Ha & Hfail). split_and!; [lia|lia|done|].
        intros j Hj. destruct (decide (j = i)) as [->|Hne]; [by eexists|].
        apply Hfail. lia.
      * destruct IH as (Hs & Hfail & Hlast). split_and!; [lia| |].
        -- intros j Hj. destruct (decide (j = i)) as [->|Hne]; [by eexists|].
           apply Hfail. lia.
        -- destruct remaining as [|k].
           ++ exists e. rewrite Nat.add_0_r. by split.
           ++ destruct Hlast as (e' & He' & ->). exists e'.
              split; [|done]. rewrite <- He'. f_equal. lia.
Qed.

(** [get_json] returns the document of the first attempt that succeeds
    among the first [retries] ones, having slept once after each failed
    attempt before it; it raises when all [retries] attempts fail, after as
    many sleeps, with the exception of the last attempt, and without any
    attempt when [retries] is not positive. *)
Theorem get_json_spec {A} (responses : nat → response A) (retries : Z) :
  match get_json responses retries with
  | (Returned a, sleeps) =>
      Z.of_nat sleeps < retries ∧ responses sleeps = Ok a
      ∧ ∀ j, (j < sleeps)%nat → ∃ e, responses j = Failed e
  | (RuntimeError last, sleeps) =>
      sleeps = Z.to_nat retries
      ∧ (∀ j, (j < sleeps)%nat → ∃ e, responses j = Failed e)
      ∧ match sleeps with
        | O => last = None
        | S k => ∃ e, responses k = Failed e ∧ last = Some e
        end
  end.
Proof.
  unfold get_json.
  pose proof (get_json_loop_spec responses 0 (Z.to_nat retries) None) as H.
  destruct (get_json_loop responses 0 (Z.to_nat retries) None 0)
    as [[a|last] sleeps].
  - destruct H as (Hs & Ha & Hfail). split_and!; [lia|done|].
    intros j Hj. apply Hfail. lia.
  - destruct H as (-> & Hfail & Hlast). split_and!; [done| |].
    + intros j Hj. apply Hfail. lia.
    + by destruct (Z.to_nat retries).
Qed.

(** Two failures, then the document. *)
Example get_json_example :
  let responses (i : nat) :=
    if bool_decide (i < 2)%nat then Failed "timeout"%string else Ok 7 in
  get_json responses 3 = (Returned 7, 2%nat)
  ∧ get_json responses 2 = (RuntimeError (Some "timeout"%string), 2%nat)
  ∧ get_json responses 0 = (RuntimeError None, 0%nat).
Proof. by split_and!. Qed.

(** *** The order of the lineup *)

(** The players of one slot stand in the lineup by descending score. *)
Theorem select_fixed_best_slot_sorted
    (players : list player) (required : dict Z) (pos : string) :
  dict_wf required →
  StronglySorted (λ a b, (score (sl_player b) <= score (sl_player a))%Q)
    (at_slot pos (select_fixed_best players required).1).
Proof.
  intros Hwf. rewrite select_fixed_best_chosen, at_slot_bind by done.
  destruct (dict_get required pos) as [need|]; [|constructor].
  unfold picks. cbn [fst snd].
  destruct (py_slice_to_take (sort_desc score (eligible players pos)) need)
    as [k ->].
  apply (StronglySorted_fmap _ (key_ge score)); [done|].
  pose proof (sort_desc_sorted score (eligible players pos)) as Hsorted.
  rewrite <- (take_drop k (sort_desc score (eligible players pos))) in Hsorted.
  by apply StronglySorted_app_1_l in Hsorted.
Qed.

Lemma select_fixed_best_slot_sorted_witness :
  StronglySorted (λ a b, (score (sl_player b) <= score (sl_player a))%Q)
    (at_slot "RB" (select_fixed_best example_pool example_required).1).
Proof.
  apply select_fixed_best_slot_sorted.
  apply (bool_decide_unpack _). vm_compute. exact I.
Defined.

End Lineup.

(** ** [Standings.py] *)
Module Standings.

(** A roster of [get_rosters]: its id and the ["division"] entry of its
    settings: [None] when the key is absent, [Some None] when it is present
    and null, [Some (Some d)] when it holds the division [d]. *)
Record roster := { roster_id : Z; division : option (option Z) }.

(** The division label of a roster:
    [roster.get("settings", {}).get("division", "Unknown")].  The default
    ["Unknown"] is only used when the key is absent; a null division is
    Python's [None], which differs from ["Unknown"] and from every
    division. *)
Inductive division_label := Division (d : Z) | NoDivision | Unknown.

Global Instance division_label_eq_dec : EqDecision division_label.
Proof. solve_decision. Defined.

Definition division_of (r : roster) : division_label :=
  match division r with
  | Some (Some d) => Division d
  | Some None => NoDivision
  | None => Unknown
  end.

(** An entry of [get_matchups]: [matchup["roster_id"]], [matchup["points"]]
    and [matchup.get("matchup_id")]. *)
Record matchup := { m_roster_id : Z; points : Q; matchup_id : option Z }.

(** The six counters of a roster. *)
Record standing := {
  wins : Z; losses : Z; ties : Z;
  division_wins : Z; division_losses : Z; division_ties : Z
}.

Definition zero_standing : standing :=
  {| wins := 0; losses := 0; ties := 0;
     division_wins := 0; division_losses := 0; division_ties := 0 |}.

Definition add_win (s : standing) : standing :=
  {| wins := wins s + 1; losses := losses s; ties := ties s;
     division_wins := division_wins s; division_losses := division_losses s;
     division_ties := division_ties s |}.
Definition add_loss (s : standing) : standing :=
  {| wins := wins s; losses := losses s + 1; ties := ties s;
     division_wins := division_wins s; division_losses := division_losses s;
     division_ties := division_ties s |}.
Definition add_tie (s : standing) : standing :=
  {| wins := wins s; losses := losses s; ties := ties s + 1;
     division_wins := division_wins s; division_losses := division_losses s;
     division_ties := division_ties s |}.
Definition add_division_win (s : standing) : standing :=
  {| wins := wins s; losses := losses s; ties := ties s;
     division_wins := division_wins s + 1; division_losses := division_losses s;
     division_ties := division_ties s |}.
Definition add_division_loss (s : standing) : standing :=
  {| wins := wins s; losses := losses s; ties := ties s;
     division_wins := division_wins s; division_losses := division_losses s + 1;
     division_ties := division_ties s |}.
Definition add_division_tie (s : standing) : standing :=
  {| wins := wins s; losses := losses s; ties := ties s;
     division_wins := division_wins s; division_losses := division_losses s;
     division_ties := division_ties s + 1 |}.

(** What the script prints. *)
Inductive diag :=
| FailedRosters
| FailedMatchups (week : Z)
| NoOpponentPoints (roster week : Z).

(** [standings[k]] and [roster_divisions[k]] raise [KeyError] on a roster id
    that [get_rosters] did not list. *)
Inductive exn := KeyError (key : Z).

(** The state of the run: the [standings] dictionary and the lines printed
    so far. *)
Record state := { standings : gmap Z standing; printed : list diag }.

(** Computations that read and update the state, or raise. *)
Definition M (A : Type) : Type := state → exn + (A * state).

Global Instance M_ret : MRet M := λ A a σ, inr (a, σ).

Global Instance M_bind : MBind M := λ A B k m σ,
  match m σ with
  | inl e => inl e
  | inr (a, σ') => k a σ'
  end.

Definition print (d : diag) : M unit :=
  λ σ, inr (tt, {| standings := standings σ; printed := printed σ ++ [d] |}).

(** [standings[rid][counter] += 1] *)
Definition bump (f : standing → standing) (rid : Z) : M unit :=
  λ σ, match standings σ !! rid with
       | Some s => inr (tt, {| standings := <[rid := f s]> (standings σ);
                               printed := printed σ |})
       | None => inl (KeyError rid)
       end.

(** [roster_divisions[rid]] *)
Definition division_lookup (roster_divisions : gmap Z division_label) (rid : Z)
    : M division_label :=
  λ σ, match roster_divisions !! rid with
       | Some d => inr (d, σ)
       | None => inl (KeyError rid)
       end.

(** [for x in l: body(x)] *)
Fixpoint for_each {A} (l : list A) (body : A → M unit) : M unit :=
  match l with
  | [] => mret tt
  | x :: l' => body x ;; for_each l' body
  end.

Definition Qgtb (a b : Q) : bool :=
  match (a ?= b)%Q with Gt => true | _ => false end.
Definition Qltb (a b : Q) : bool :=
  match (a ?= b)%Q with Lt => true | _ => false end.

(** The lookup of the opponent: [matchup_id] is read as the opponent's
    roster id, [if opponent_id:] rejects [None] and [0], and the opponent's
    entry is the first one of the week with that roster id.  [None] is
    [opponent_points is None]. *)
Definition opponent_of (matchups : list matchup) (m : matchup) : option (Z * Q) :=
  match matchup_id m with
  | Some opponent_id =>
      if bool_decide (opponent_id = 0) then None
      else
        match head (filter (λ m', m_roster_id m' = opponent_id) matchups) with
        | Some opponent_matchup => Some (opponent_id, points opponent_matchup)
        | None => None
        end
  | None => None
  end.

(** The two [if]/[elif]/[else] blocks of the loop body. *)
Definition record_result (roster_divisions : gmap Z division_label)
    (rid opponent_id : Z) (pts opponent_points : Q) : M unit :=
  (if Qgtb pts opponent_points then
     bump add_win rid ;; bump add_loss opponent_id
   else if Qltb pts opponent_points then
     bump add_loss rid ;; bump add_win opponent_id
   else
     bump add_tie rid ;; bump add_tie opponent_id) ;;
  d1 ← division_lookup roster_divisions rid;
  d2 ← division_lookup roster_divisions opponent_id;
  if bool_decide (d1 = d2) then
    if Qgtb pts opponent_points then
      bump add_division_win rid ;; bump add_division_loss opponent_id
    else if Qltb pts opponent_points then
      bump add_division_loss rid ;; bump add_division_win opponent_id
    else
      bump add_division_tie rid ;; bump add_division_tie opponent_id
  else mret tt.

(** The body of [for matchup in matchups]. *)
Definition process_entry (roster_divisions : gmap Z division_label)
    (matchups : list matchup) (week : Z) (m : matchup) : M unit :=
  match opponent_of matchups m with
  | None => print (NoOpponentPoints (m_roster_id m) week)
  | Some (opponent_id, opponent_points) =>
      record_result roster_divisions (m_roster_id m) opponent_id
        (points m) opponent_points
  end.

(** The body of [for week in range(1, max_week + 1)]; [not matchups] holds
    of a failed fetch ([None]) and of an empty list. *)
Definition process_week (roster_divisions : gmap Z division_label)
    (get_matchups : Z → option (list matchup)) (week : Z) : M unit :=
  match get_matchups week with
  | None | Some [] => print (FailedMatchups week)
  | Some matchups =>
      for_each matchups (process_entry roster_divisions matchups week)
  end.

(** [process_matchups], given what [get_rosters] and [get_matchups] return:
    the value returned ([None] after a failed roster fetch) and the lines
    printed, or the exception raised. *)
Definition process_matchups (get_rosters : option (list roster))
    (get_matchups : Z → option (list matchup)) (max_week : Z)
    : exn + (option (gmap Z standing) * list diag) :=
  match get_rosters with
  | None | Some [] => inr (None, [FailedRosters])
  | Some rosters =>
      let roster_divisions : gmap Z division_label :=
        foldl (λ d r, <[roster_id r := division_of r]> d) ∅ rosters in
      let standings0 : gmap Z standing :=
        (λ _, zero_standing) <$> roster_divisions in
      match for_each (seqZ 1 max_week)
              (process_week roster_divisions get_matchups)
              {| standings := standings0; printed := [] |} with
      | inl e => inl e
      | inr (_, σ) => inr (Some (standings σ), printed σ)
      end
  end.

(** *** Skipped units *)

(** The state after one more printed line; the counters are the same. *)
Definition logged (σ : state) (d : diag) : state :=
  {| standings := standings σ; printed := printed σ ++ [d] |}.

Lemma for_each_cons {A} (x : A) (l : list A) (body : A → M unit) (σ : state) :
  for_each (x :: l) body σ =
  match body x σ with
  | inl e => inl e
  | inr (_, σ') => for_each l body σ'
  end.
Proof. reflexivity. Qed.

Lemma process_week_failed roster_divisions get_matchups week σ :
  get_matchups week = None →
  process_week roster_divisions get_matchups week σ =
  inr (tt, logged σ (FailedMatchups week)).
Proof. intros H. unfold process_week. by rewrite H. Qed.

Lemma process_entry_unresolved roster_divisions matchups week m σ :
  opponent_of matchups m = None →
  process_entry roster_divisions matchups week m σ =
  inr (tt, logged σ (NoOpponentPoints (m_roster_id m) week)).
Proof. intros H. unfold process_entry. by rewrite H. Qed.

(** Two rosters without a division, which meet in week 1; no week 2. *)
Definition two_rosters : option (list roster) :=
  Some [ {| roster_id := 1; division := None |};
         {| roster_id := 2; division := None |} ].

Definition week_one : list matchup :=
  [ {| m_roster_id := 1; points := 100; matchup_id := Some 2 |};
    {| m_roster_id := 2; points := 90; matchup_id := Some 1 |} ].

Definition one_game (week : Z) : option (list matchup) :=
  if bool_decide (week = 1) then Some week_one else None.

(** An entry without an opponent. *)
Definition bye_entry : matchup :=
  {| m_roster_id := 3; points := 80; matchup_id := None |}.

(** C7: a week whose matchup fetch failed, and a matchup entry whose
    opponent's points are not found, each print one line and leave the
    [standings] dictionary as it was; the loop goes on with the weeks, or
    the entries, that remain. *)
Theorem failed_unit_is_skipped
    (roster_divisions : gmap Z division_label)
    (get_matchups : Z → option (list matchup)) :
  (∀ week rest σ,
     get_matchups week = None →
     process_week roster_divisions get_matchups week σ =
       inr (tt, logged σ (FailedMatchups week))
     ∧ standings (logged σ (FailedMatchups week)) = standings σ
     ∧ for_each (week :: rest) (process_week roster_divisions get_matchups) σ =
       for_each rest (process_week roster_divisions get_matchups)
         (logged σ (FailedMatchups week)))
  ∧ (∀ matchups week m rest σ,
     opponent_of matchups m = None →
     process_entry roster_divisions matchups week m σ =
       inr (tt, logged σ (NoOpponentPoints (m_roster_id m) week))
     ∧ standings (logged σ (NoOpponentPoints (m_roster_id m) week)) = standings σ
     ∧ for_each (m :: rest) (process_entry roster_divisions matchups week) σ =
       for_each rest (process_entry roster_divisions matchups week)
         (logged σ (NoOpponentPoints (m_roster_id m) week))).
Proof.
  split.
  - intros week rest σ H. split_and!; [by apply process_week_failed|done|].
    by rewrite for_each_cons, process_week_failed.
  - intros matchups week m rest σ H.
    split_and!; [by apply process_entry_unresolved|done|].
    by rewrite for_each_cons, process_entry_unresolved.
Qed.

Lemma failed_unit_is_skipped_witness :
  let σ := {| standings := {[ 3 := zero_standing ]}; printed := [] |} in
  (one_game 2 = None
   ∧ process_week ∅ one_game 2 σ = inr (tt, logged σ (FailedMatchups 2)))
  ∧ (opponent_of (bye_entry :: week_one) bye_entry = None
     ∧ for_each (bye_entry :: week_one)
         (process_entry ∅ (bye_entry :: week_one) 1) σ =
       for_each week_one (process_entry ∅ (bye_entry :: week_one) 1)
         (logged σ (NoOpponentPoints 3 1))).
Proof.
  intros σ. split.
  - split; [reflexivity|].
    apply (proj1 (failed_unit_is_skipped ∅ one_game) 2 [] σ). reflexivity.
  - split; [reflexivity|].
    apply (proj2 (failed_unit_is_skipped ∅ one_game)
             (bye_entry :: week_one) 1 bye_entry week_one σ).
    reflexivity.
Defined.

(** *** Each game is counted from both sides *)

(** Rosters 1 and 2 meet in week 1 with any two scores. *)
Definition game (pa pb : Q) (week : Z) : option (list matchup) :=
  if bool_decide (week = 1) then
    Some [ {| m_roster_id := 1; points := pa; matchup_id := Some 2 |};
           {| m_roster_id := 2; points := pb; matchup_id := Some 1 |} ]
  else None.

(** A tie is counted twice as well: two ties for each roster after the
    one game. *)
Example process_matchups_tie_twice :
  ∃ st : gmap Z standing,
    process_matchups two_rosters (game 77 77) 1 = inr (Some st, [])
    ∧ ties <$> st !! 1 = Some 2
    ∧ ties <$> st !! 2 = Some 2.
Proof. eexists. split_and!; vm_compute; reflexivity. Qed.

(** And so is a game that the first roster loses. *)
Example process_matchups_loss_twice :
  ∃ st : gmap Z standing,
    process_matchups two_rosters (game 80 95) 1 = inr (Some st, [])
    ∧ losses <$> st !! 1 = Some 2
    ∧ wins <$> st !! 2 = Some 2.
Proof. eexists. split_and!; vm_compute; reflexivity. Qed.

(** C4: two rosters that meet once in week 1, roster 1 scoring more.  The
    entry of roster 1 records a win for 1 and a loss for 2, and the entry of
    roster 2 records the same game again: after the one week, roster 1 has
    two wins and roster 2 two losses. *)
Theorem process_matchups_counts_game_twice :
  ∃ st : gmap Z standing,
    process_matchups two_rosters one_game 1 = inr (Some st, [])
    ∧ st !! 1 = Some {| wins := 2; losses := 0; ties := 0;
                        division_wins := 2; division_losses := 0;
                        division_ties := 0 |}
    ∧ st !! 2 = Some {| wins := 0; losses := 2; ties := 0;
                        division_wins := 0; division_losses := 2;
                        division_ties := 0 |}.
Proof. eexists. split_and!; [reflexivity|reflexivity|reflexivity]. Qed.

(** *** What one entry does to the standings *)

(** The result of a comparison, for the roster of the entry. *)
Inductive outcome := Won | Lost | Tied.

Definition outcome_of (pts opponent_points : Q) : outcome :=
  if Qgtb pts opponent_points then Won
  else if Qltb pts opponent_points then Lost
  else Tied.

Definition own_bump (o : outcome) : standing → standing :=
  match o with Won => add_win | Lost => add_loss | Tied => add_tie end.
Definition opponent_bump (o : outcome) : standing → standing :=
  match o with Won => add_loss | Lost => add_win | Tied => add_tie end.
Definition own_division_bump (o : outcome) : standing → standing :=
  match o with
  | Won => add_division_win | Lost => add_division_loss | Tied => add_division_tie
  end.
Definition opponent_division_bump (o : outcome) : standing → standing :=
  match o with
  | Won => add_division_loss | Lost => add_division_win | Tied => add_division_tie
  end.

(** The standings after an entry with outcome [o] for [rid] against
    [opponent_id], in the same division or not. *)
Definition recorded (same_division : bool) (o : outcome) (rid opponent_id : Z)
    (st : gmap Z standing) : gmap Z standing :=
  let st1 := alter (opponent_bump o) opponent_id (alter (own_bump o) rid st) in
  if same_division
  then alter (opponent_division_bump o) opponent_id
         (alter (own_division_bump o) rid st1)
  else st1.

Lemma bump_run (f : standing → standing) (rid : Z) (σ : state) :
  bump f rid σ =
  match standings σ !! rid with
  | Some _ => inr (tt, {| standings := alter f rid (standings σ);
                          printed := printed σ |})
  | None => inl (KeyError rid)
  end.
Proof.
  unfold bump. destruct (standings σ !! rid) as [s|] eqn:E; [|done].
  do 3 f_equal. apply map_eq. intros k.
  rewrite lookup_insert, lookup_alter. case_decide; [|done]. subst. by rewrite E.
Qed.

Lemma bump_pair_run (f g : standing → standing) (a b : Z) (σ : state) :
  (bump f a ;; bump g b) σ =
  match standings σ !! a, standings σ !! b with
  | Some _, Some _ =>
      inr (tt, {| standings := alter g b (alter f a (standings σ));
                  printed := printed σ |})
  | Some _, None => inl (KeyError b)
  | None, _ => inl (KeyError a)
  end.
Proof.
  unfold mbind, M_bind. rewrite bump_run.
  destruct (standings σ !! a) as [s|] eqn:Ea; [|done].
  rewrite bump_run. cbn [standings printed]. rewrite lookup_alter.
  case_decide; subst.
  - rewrite Ea. done.
  - by destruct (standings σ !! b).
Qed.

(** [record_result] raises [KeyError] for the first of the roster and the
    opponent that [standings] (or [roster_divisions]) does not hold, and
    otherwise updates [standings] as [recorded] says, printing nothing. *)
Lemma record_result_run (roster_divisions : gmap Z division_label)
    (rid opponent_id : Z) (pts opponent_points : Q) (σ : state) :
  record_result roster_divisions rid opponent_id pts opponent_points σ =
  match standings σ !! rid, standings σ !! opponent_id with
  | None, _ => inl (KeyError rid)
  | Some _, None => inl (KeyError opponent_id)
  | Some _, Some _ =>
      match roster_divisions !! rid, roster_divisions !! opponent_id with
      | None, _ => inl (KeyError rid)
      | Some _, None => inl (KeyError opponent_id)
      | Some d1, Some d2 =>
          inr (tt, {| standings :=
                        recorded (bool_decide (d1 = d2))
                          (outcome_of pts opponent_points) rid opponent_id
                          (standings σ);
                      printed := printed σ |})
      end
  end.
Proof.
  assert (∀ o σ0,
    (bump (own_bump o) rid ;; bump (opponent_bump o) opponent_id) σ0 =
    match standings σ0 !! rid, standings σ0 !! opponent_id with
    | Some _, Some _ =>
        inr (tt, {| standings := alter (opponent_bump o) opponent_id
                                   (alter (own_bump o) rid (standings σ0));
                    printed := printed σ0 |})
    | Some _, None => inl (KeyError opponent_id)
    | None, _ => inl (KeyError rid)
    end) as Hfirst by (intros; apply bump_pair_run).
  assert (∀ o σ0,
    (bump (own_division_bump o) rid ;;
     bump (opponent_division_bump o) opponent_id) σ0 =
    match standings σ0 !! rid, standings σ0 !! opponent_id with
    | Some _, Some _ =>
        inr (tt, {| standings := alter (opponent_division_bump o) opponent_id
                                   (alter (own_division_bump o) rid (standings σ0));
                    printed := printed σ0 |})
    | Some _, None => inl (KeyError opponent_id)
    | None, _ => inl (KeyError rid)
    end) as Hsecond by (intros; apply bump_pair_run).
  unfold record_result.
  transitivity (
    ((bump (own_bump (outcome_of pts opponent_points)) rid ;;
      bump (opponent_bump (outcome_of pts opponent_points)) opponent_id) ;;
     d1 ← division_lookup roster_divisions rid;
     d2 ← division_lookup roster_divisions opponent_id;
     if bool_decide (d1 = d2)
     then bump (own_division_bump (outcome_of pts opponent_points)) rid ;;
          bump (opponent_division_bump (outcome_of pts opponent_points)) opponent_id
     else mret tt) σ).
  { unfold outcome_of.
    by destruct (Qgtb pts opponent_points), (Qltb pts opponent_points). }
  unfold mbind at 1. unfold M_bind at 1. rewrite Hfirst.
  destruct (standings σ !! rid) as [s1|] eqn:E1; [|done].
  destruct (standings σ !! opponent_id) as [s2|] eqn:E2; [|done].
  unfold mbind at 1. unfold M_bind at 1. unfold division_lookup at 1.
  destruct (roster_divisions !! rid) as [d1|]; [|done].
  unfold mbind at 1. unfold M_bind at 1. unfold division_lookup at 1.
  destruct (roster_divisions !! opponent_id) as [d2|]; [|done].
  unfold recorded. case_bool_decide; [|done].
  rewrite Hsecond. cbn [standings printed].
  rewrite !lookup_alter. repeat case_decide; subst; by rewrite ?E1, ?E2.
Qed.

(** *** Invariants of a run *)

(** [roster_divisions] and the initial [standings] of [process_matchups]. *)
Definition divisions_of (rosters : list roster) : gmap Z division_label :=
  foldl (λ d r, <[roster_id r := division_of r]> d) ∅ rosters.

Definition initial_standings (rosters : list roster) : gmap Z standing :=
  (λ _, zero_standing) <$> divisions_of rosters.

(** A step that, when it does not raise, keeps a property of [standings]. *)
Definition preserves (P : gmap Z standing → Prop) (m : M unit) : Prop :=
  ∀ σ σ', P (standings σ) → m σ = inr (tt, σ') → P (standings σ').

Lemma for_each_preserves (P : gmap Z standing → Prop) {A} (l : list A)
    (body : A → M unit) :
  (∀ x, x ∈ l → preserves P (body x)) → preserves P (for_each l body).
Proof.
  induction l as [|x l IH]; intros Hbody σ σ' HP Hrun.
  - by injection Hrun as <-.
  - rewrite for_each_cons in Hrun.
    destruct (body x σ) as [e|[[] σ1]] eqn:E; [done|].
    eapply IH; [|eapply (Hbody x); [left|exact HP|exact E]|exact Hrun].
    intros y Hy. apply Hbody. by right.
Qed.

Lemma print_preserves (P : gmap Z standing → Prop) (d : diag) :
  preserves P (print d).
Proof. intros σ σ' HP [= <-]. exact HP. Qed.

Section invariant.
Context (P : gmap Z standing → Prop).
Hypothesis recorded_closed :
  ∀ same o rid opponent_id st,
    P st → is_Some (st !! rid) → is_Some (st !! opponent_id) →
    P (recorded same o rid opponent_id st).

Lemma process_entry_preserves roster_divisions matchups week m :
  preserves P (process_entry roster_divisions matchups week m).
Proof.
  unfold process_entry.
  destruct (opponent_of matchups m) as [[opponent_id opponent_points]|];
    [|apply print_preserves].
  intros σ σ' HP Hrun. rewrite record_result_run in Hrun.
  destruct (standings σ !! m_roster_id m) as [s1|] eqn:E1; [|done].
  destruct (standings σ !! opponent_id) as [s2|] eqn:E2; [|done].
  destruct (roster_divisions !! m_roster_id m) as [d1|]; [|done].
  destruct (roster_divisions !! opponent_id) as [d2|]; [|done].
  injection Hrun as <-. cbn [standings].
  apply recorded_closed; [done|by rewrite E1|by rewrite E2].
Qed.

Lemma process_week_preserves roster_divisions get_matchups week :
  preserves P (process_week roster_divisions get_matchups week).
Proof.
  unfold process_week.
  destruct (get_matchups week) as [[|m ms]|]; try apply print_preserves.
  apply for_each_preserves. intros x _. apply process_entry_preserves.
Qed.

Lemma process_matchups_invariant get_rosters get_matchups max_week st log :
  process_matchups get_rosters get_matchups max_week = inr (Some st, log) →
  ∃ rosters, get_rosters = Some rosters ∧ rosters ≠ []
             ∧ (P (initial_standings rosters) → P st).
Proof.
  unfold process_matchups. intros Hrun.
  destruct get_rosters as [[|r rs]|]; try done.
  exists (r :: rs). split_and!; [done|done|]. intros HP.
  fold (divisions_of (r :: rs)) in Hrun.
  fold (initial_standings (r :: rs)) in Hrun.
  destruct (for_each _ _ _) as [e|[[] σ']] eqn:E; [done|].
  injection Hrun as <- <-.
  eapply (for_each_preserves P) in E; [exact E| |exact HP].
  intros week _. apply process_week_preserves.
Qed.
End invariant.

Lemma dom_divisions_of (rosters : list roster) :
  dom (divisions_of rosters) = list_to_set (roster_id <$> rosters).
Proof.
  unfold divisions_of. induction rosters as [|r rosters IH] using rev_ind.
  - cbn. apply dom_empty_L.
  - rewrite foldl_app, fmap_app, list_to_set_app_L. cbn [foldl].
    rewrite dom_insert_L, IH. cbn.
    rewrite (right_id_L ∅ (∪)). apply (comm_L (∪)).
Qed.

Lemma recorded_dom same o rid opponent_id (st : gmap Z standing) :
  dom (recorded same o rid opponent_id st) = dom st.
Proof. unfold recorded. destruct same; by rewrite !dom_alter_L. Qed.

(** The standings returned hold exactly the rosters that [get_rosters]
    listed: no roster is lost, and none is added from the matchups. *)
Theorem process_matchups_keys get_rosters get_matchups max_week st log :
  process_matchups get_rosters get_matchups max_week = inr (Some st, log) →
  ∃ rosters, get_rosters = Some rosters
             ∧ dom st = list_to_set (roster_id <$> rosters).
Proof.
  intros Hrun.
  eapply (process_matchups_invariant
            (λ st', ∀ rosters, get_rosters = Some rosters →
                      dom st' = list_to_set (roster_id <$> rosters)))
    in Hrun as (rosters & -> & _ & HP).
  - exists rosters. split; [done|]. apply HP; [|done].
    intros rs [= <-]. unfold initial_standings.
    by rewrite dom_fmap_L, dom_divisions_of.
  - intros same o rid opp st' Hst _ _ rs Hrs.
    rewrite recorded_dom. by apply Hst.
Qed.

Lemma process_matchups_keys_witness :
  ∃ st log, process_matchups two_rosters one_game 1 = inr (Some st, log)
            ∧ dom st = ({[ 1; 2 ]} : gset Z).
Proof.
  destruct (process_matchups two_rosters one_game 1) as [e|[[st|] log]] eqn:E;
    [by vm_compute in E| |by vm_compute in E].
  exists st, log. split; [done|].
  destruct (process_matchups_keys _ _ _ _ _ E) as (rosters & Hr & ->).
  injection Hr as <-. vm_compute. reflexivity.
Defined.

(** A record whose counters are not negative and whose division counters
    do not exceed the overall ones. *)
Definition consistent (s : standing) : Prop :=
  0 ≤ division_wins s ≤ wins s
  ∧ 0 ≤ division_losses s ≤ losses s
  ∧ 0 ≤ division_ties s ≤ ties s.

Lemma recorded_lookup same o rid opponent_id (st : gmap Z standing) (k : Z) :
  recorded same o rid opponent_id st !! k =
  (λ s,
     let s1 := if decide (rid = k) then own_bump o s else s in
     let s2 := if decide (opponent_id = k) then opponent_bump o s1 else s1 in
     if same then
       let s3 := if decide (rid = k) then own_division_bump o s2 else s2 in
       if decide (opponent_id = k) then opponent_division_bump o s3 else s3
     else s2) <$> st !! k.
Proof.
  unfold recorded.
  destruct same, (decide (rid = k)), (decide (opponent_id = k)); subst;
    repeat first [rewrite lookup_alter_eq|rewrite lookup_alter_ne by done];
    by destruct (st !! k).
Qed.

(** Every record of the standings returned is consistent: no counter is
    negative, and a roster has no more division wins, losses or ties than
    wins, losses or ties. *)
Theorem process_matchups_consistent get_rosters get_matchups max_week st log :
  process_matchups get_rosters get_matchups max_week = inr (Some st, log) →
  map_Forall (λ _ s, consistent s) st.
Proof.
  intros Hrun.
  eapply (process_matchups_invariant (map_Forall (λ _ s, consistent s)))
    in Hrun as (rosters & _ & _ & HP).
  - apply HP. unfold initial_standings. apply map_Forall_fmap.
    intros k d _. cbn. unfold consistent. cbn. lia.
  - intros same o rid opp st' Hst _ _ k s' Hk.
    rewrite recorded_lookup in Hk.
    destruct (st' !! k) as [s|] eqn:E; [|done].
    injection Hk as <-. specialize (Hst k s E). cbn beta in Hst.
    unfold consistent in *.
    destruct same, o, (decide (rid = k)), (decide (opp = k)); cbn; lia.
Qed.

Lemma process_matchups_consistent_witness :
  ∃ st log, process_matchups two_rosters one_game 1 = inr (Some st, log)
            ∧ map_Forall (λ _ s, consistent s) st.
Proof.
  destruct (process_matchups two_rosters one_game 1) as [e|[[st|] log]] eqn:E;
    [by vm_compute in E| |by vm_compute in E].
  exists st, log. split; [done|].
  exact (process_matchups_consistent _ _ _ _ _ E).
Defined.

(** *** Totals over the league *)

(** The sum of a counter over all rosters. *)
Definition total (g : standing → Z) (st : gmap Z standing) : Z :=
  map_fold (λ _ s acc, g s + acc) 0 st.

Lemma total_insert (g : standing → Z) (st : gmap Z standing) k s :
  st !! k = None → total g (<[k:=s]> st) = g s + total g st.
Proof.
  intros Hk. unfold total.
  rewrite (map_fold_insert_L (λ _ s acc, g s + acc) 0 k s st); [done| |done].
  intros. lia.
Qed.

Lemma total_alter_shift (g : standing → Z) (f : standing → standing) (δ : Z)
    (st : gmap Z standing) k :
  (∀ s, g (f s) = g s + δ) → is_Some (st !! k) →
  total g (alter f k st) = total g st + δ.
Proof.
  intros Hshift [s Hs].
  rewrite <- (insert_delete_id st k s Hs) at 1 2.
  rewrite alter_insert_eq, !total_insert by apply lookup_delete_eq.
  rewrite Hshift. lia.
Qed.

Lemma total_initial (g : standing → Z) (rosters : list roster) :
  g zero_standing = 0 → total g (initial_standings rosters) = 0.
Proof.
  intros Hz. unfold initial_standings. generalize (divisions_of rosters).
  intros m. induction m as [|k d m Hk IH] using map_ind.
  - by rewrite fmap_empty.
  - rewrite fmap_insert, total_insert by (by rewrite lookup_fmap, Hk). lia.
Qed.

Lemma alter_is_Some (f : standing → standing) (st : gmap Z standing) j k :
  is_Some (alter f j st !! k) ↔ is_Some (st !! k).
Proof. by rewrite <- !elem_of_dom, dom_alter_L. Qed.

(** What an entry adds to the total of a counter. *)
Definition added (g_own g_opp g_own_div g_opp_div : Z) (same : bool) : Z :=
  g_own + g_opp + (if same then g_own_div + g_opp_div else 0).

Lemma total_recorded (g : standing → Z) (a b c d : Z) same o rid opponent_id
    (st : gmap Z standing) :
  (∀ s, g (own_bump o s) = g s + a) →
  (∀ s, g (opponent_bump o s) = g s + b) →
  (∀ s, g (own_division_bump o s) = g s + c) →
  (∀ s, g (opponent_division_bump o s) = g s + d) →
  is_Some (st !! rid) → is_Some (st !! opponent_id) →
  total g (recorded same o rid opponent_id st) = total g st + added a b c d same.
Proof.
  intros Ha Hb Hc Hd Hrid Hopp. unfold recorded, added.
  destruct same.
  - rewrite (total_alter_shift g _ d) by (by rewrite ?alter_is_Some).
    rewrite (total_alter_shift g _ c) by (by rewrite ?alter_is_Some).
    rewrite (total_alter_shift g _ b) by (by rewrite ?alter_is_Some).
    rewrite (total_alter_shift g _ a) by done. lia.
  - rewrite (total_alter_shift g _ b) by (by rewrite ?alter_is_Some).
    rewrite (total_alter_shift g _ a) by done. lia.
Qed.

(** What the entries recorded so far add up to: as many wins as losses
    over the league, overall and within divisions, and an even number of
    results, since each entry records one result for each side. *)
Definition balanced (st : gmap Z standing) : Prop :=
  total wins st = total losses st
  ∧ total division_wins st = total division_losses st
  ∧ Z.even (total (λ s, wins s + losses s + ties s) st) = true.

Lemma recorded_balanced same o rid opponent_id (st : gmap Z standing) :
  balanced st → is_Some (st !! rid) → is_Some (st !! opponent_id) →
  balanced (recorded same o rid opponent_id st).
Proof.
  intros (Hw & Hd & He) Hrid Hopp. unfold balanced.
  destruct o.
  - rewrite (total_recorded wins 1 0 0 0), (total_recorded losses 0 1 0 0),
      (total_recorded division_wins 0 0 1 0),
      (total_recorded division_losses 0 0 0 1),
      (total_recorded (λ s, wins s + losses s + ties s) 1 1 0 0)
      by (done || (intros []; cbn; lia)).
    split_and!; [unfold added; lia|unfold added; destruct same; lia|].
    unfold added. destruct same; cbn [Z.add]; rewrite Z.even_add, He; done.
  - rewrite (total_recorded wins 0 1 0 0), (total_recorded losses 1 0 0 0),
      (total_recorded division_wins 0 0 0 1),
      (total_recorded division_losses 0 0 1 0),
      (total_recorded (λ s, wins s + losses s + ties s) 1 1 0 0)
      by (done || (intros []; cbn; lia)).
    split_and!; [unfold added; lia|unfold added; destruct same; lia|].
    unfold added. destruct same; cbn [Z.add]; rewrite Z.even_add, He; done.
  - rewrite (total_recorded wins 0 0 0 0), (total_recorded losses 0 0 0 0),
      (total_recorded division_wins 0 0 0 0),
      (total_recorded division_losses 0 0 0 0),
      (total_recorded (λ s, wins s + losses s + ties s) 1 1 0 0)
      by (done || (intros []; cbn; lia)).
    split_and!; [unfold added; lia|unfold added; destruct same; lia|].
    unfold added. destruct same; cbn [Z.add]; rewrite Z.even_add, He; done.
Qed.

(** Over the standings returned, the wins of all rosters are as many as
    the losses of all rosters, overall and within divisions, and the number
    of all results (wins, losses and ties) is even. *)
Theorem process_matchups_balanced get_rosters get_matchups max_week st log :
  process_matchups get_rosters get_matchups max_week = inr (Some st, log) →
  total wins st = total losses st
  ∧ total division_wins st = total division_losses st
  ∧ Z.even (total (λ s, wins s + losses s + ties s) st) = true.
Proof.
  intros Hrun.
  eapply (process_matchups_invariant balanced) in Hrun as (rosters & _ & _ & HP).
  - apply HP. unfold balanced. by rewrite !total_initial.
  - intros. by apply recorded_balanced.
Qed.

Lemma process_matchups_balanced_witness :
  ∃ st log, process_matchups two_rosters one_game 1 = inr (Some st, log)
            ∧ total wins st = total losses st.
Proof.
  destruct (process_matchups two_rosters one_game 1) as [e|[[st|] log]] eqn:E;
    [by vm_compute in E| |by vm_compute in E].
  exists st, log. split; [done|].
  exact (proj1 (process_matchups_balanced _ _ _ _ _ E)).
Defined.

(** *** When a run raises *)

Lemma opponent_of_Some (matchups : list matchup) (m : matchup) opponent_id pts :
  opponent_of matchups m = Some (opponent_id, pts) →
  opponent_id ≠ 0
  ∧ ∃ m', m' ∈ matchups ∧ m_roster_id m' = opponent_id ∧ points m' = pts.
Proof.
  unfold opponent_of. destruct (matchup_id m) as [oid|]; [|done].
  case_bool_decide as Hz; [done|].
  destruct (head _) as [om|] eqn:E; [|done]. intros [= <- <-].
  split; [done|]. exists om. apply head_Some_elem_of in E.
  apply list_elem_of_filter in E as [? ?]. done.
Qed.

(** An entry whose opponent is found, but whose roster (or else whose
    opponent) is not a key of [standings], raises [KeyError] for that id, and
    the exception ends the loop over the entries: nothing of the week's
    remaining entries is processed. *)
Theorem process_entry_unknown_roster
    (roster_divisions : gmap Z division_label) (matchups : list matchup)
    (week : Z) (m : matchup) (rest : list matchup)
    (opponent_id : Z) (pts : Q) (σ : state) :
  opponent_of matchups m = Some (opponent_id, pts) →
  (standings σ !! m_roster_id m = None →
   for_each (m :: rest) (process_entry roster_divisions matchups week) σ =
   inl (KeyError (m_roster_id m)))
  ∧ (is_Some (standings σ !! m_roster_id m) →
     standings σ !! opponent_id = None →
     for_each (m :: rest) (process_entry roster_divisions matchups week) σ =
     inl (KeyError opponent_id)).
Proof.
  intros Hopp. rewrite for_each_cons. unfold process_entry.
  rewrite Hopp, record_result_run. split.
  - by intros ->.
  - intros [s ->] ->. done.
Qed.

(** Roster 9 is not listed, and meets roster 1. *)
Definition stray_week : list matchup :=
  [ {| m_roster_id := 9; points := 50; matchup_id := Some 1 |};
    {| m_roster_id := 1; points := 60; matchup_id := Some 9 |} ].

Lemma process_entry_unknown_roster_witness :
  let σ := {| standings := {[ 1 := zero_standing ]}; printed := [] |} in
  for_each stray_week (process_entry {[ 1 := Unknown ]} stray_week 1) σ =
  inl (KeyError 9).
Proof.
  intros σ.
  apply (proj1 (process_entry_unknown_roster {[ 1 := Unknown ]} stray_week 1
                  {| m_roster_id := 9; points := 50; matchup_id := Some 1 |}
                  [ {| m_roster_id := 1; points := 60; matchup_id := Some 9 |} ]
                  1 60 σ eq_refl)).
  reflexivity.
Defined.

(** *** When a run returns *)

(** A step that, from standings over the rosters [D], does not raise and
    leaves standings over [D]. *)
Definition safe (D : gset Z) (m : M unit) : Prop :=
  ∀ σ, dom (standings σ) = D →
       ∃ σ', m σ = inr (tt, σ') ∧ dom (standings σ') = D.

Lemma for_each_safe (D : gset Z) {A} (l : list A) (body : A → M unit) :
  (∀ x, x ∈ l → safe D (body x)) → safe D (for_each l body).
Proof.
  induction l as [|x l IH]; intros Hbody σ Hσ.
  - by exists σ.
  - rewrite for_each_cons.
    destruct (Hbody x ltac:(left) σ Hσ) as (σ1 & -> & Hσ1).
    apply IH; [|done]. intros y Hy. apply Hbody. by right.
Qed.

Lemma print_safe (D : gset Z) (d : diag) : safe D (print d).
Proof. intros σ Hσ. by eexists. Qed.

Lemma process_entry_safe (D : gset Z) roster_divisions matchups week m :
  dom roster_divisions = D →
  Forall (λ m', m_roster_id m' ∈ D) matchups →
  m ∈ matchups →
  safe D (process_entry roster_divisions matchups week m).
Proof.
  intros Hdiv Hall Hm. unfold process_entry.
  destruct (opponent_of matchups m) as [[opponent_id pts]|] eqn:Hopp;
    [|apply print_safe].
  intros σ Hσ. rewrite record_result_run.
  rewrite Forall_forall in Hall.
  apply opponent_of_Some in Hopp as (_ & m' & Hm' & <- & _).
  pose proof (Hall m Hm) as H1. pose proof (Hall m' Hm') as H2.
  cbn beta in H1, H2.
  assert (is_Some (standings σ !! m_roster_id m)) as [s1 ->]
    by (apply elem_of_dom; by rewrite Hσ).
  assert (is_Some (standings σ !! m_roster_id m')) as [s2 ->]
    by (apply elem_of_dom; by rewrite Hσ).
  assert (is_Some (roster_divisions !! m_roster_id m)) as [d1 ->]
    by (apply elem_of_dom; by rewrite Hdiv).
  assert (is_Some (roster_divisions !! m_roster_id m')) as [d2 ->]
    by (apply elem_of_dom; by rewrite Hdiv).
  eexists. split; [done|]. cbn [standings]. by rewrite recorded_dom.
Qed.

(** When every entry of every fetched week belongs to a listed roster, the
    run raises no exception: it returns standings. *)
Theorem process_matchups_returns (rosters : list roster)
    (get_matchups : Z → option (list matchup)) (max_week : Z) :
  rosters ≠ [] →
  (∀ week matchups,
     get_matchups week = Some matchups →
     Forall (λ m, m_roster_id m ∈ roster_id <$> rosters) matchups) →
  ∃ st log,
    process_matchups (Some rosters) get_matchups max_week = inr (Some st, log).
Proof.
  intros Hne Hall. unfold process_matchups.
  destruct rosters as [|r rs]; [done|].
  fold (divisions_of (r :: rs)). fold (initial_standings (r :: rs)).
  set (D := dom (divisions_of (r :: rs))).
  destruct (for_each_safe D (seqZ 1 max_week)
              (process_week (divisions_of (r :: rs)) get_matchups))
    with (σ := {| standings := initial_standings (r :: rs); printed := [] |})
    as (σ' & -> & _).
  - intros week _. unfold process_week.
    destruct (get_matchups week) as [[|m ms]|] eqn:E; try apply print_safe.
    apply for_each_safe. intros x Hx. apply process_entry_safe; [done| |done].
    eapply Forall_impl; [exact (Hall week _ E)|].
    intros m' Hm'. cbn beta in *. unfold D. rewrite dom_divisions_of.
    by apply elem_of_list_to_set.
  - cbn [standings]. unfold initial_standings. by rewrite dom_fmap_L.
  - by eexists _, _.
Qed.

Lemma process_matchups_returns_witness :
  ∃ st log,
    process_matchups two_rosters one_game 1 = inr (Some st, log).
Proof.
  apply process_matchups_returns; [done|].
  intros week matchups Hweek. unfold one_game in Hweek.
  case_bool_decide; [|done]. injection Hweek as <-.
  repeat constructor; cbn; set_solver.
Defined.

End Standings.

(** ** [topScorer.py] *)
Module TopScorer.

(** An entry of [get_matchups]: [matchup.get("players_points", {})], the
    scores of the week by player id, in the order of the document. *)
Record matchup := { players_points : dict Q }.

(** An entry of the player database: [player_info.get("position")]. *)
Record player_info := { position : option string }.

(** An entry of the returned list; [None] is Python's [None]. *)
Record week_scores := {
  week : Z;
  highest_score : option Q;
  twelfth_highest_score : option Q
}.

Inductive diag :=
| FailedMatchups (week : Z)
| NoScores (position : string) (week : Z).

(** The two inner loops: the scores of the players whose database entry
    has the requested position, matchup by matchup. *)
Definition position_scores_of (players : gmap string player_info)
    (pos : string) (matchups : list matchup) : list Q :=
  matchups ≫= λ m,
    (filter (λ ps, (players !! ps.1 ≫= position) = Some pos)
       (players_points m)).*2.

(** Lines 62 to 77: the entry of one week, and the line printed when the
    week has no score at the position. *)
Definition week_entry (pos : string) (wk : Z) (position_scores : list Q)
    : week_scores * list diag :=
  match position_scores with
  | [] =>
      ({| week := wk; highest_score := None; twelfth_highest_score := None |},
       [NoScores pos wk])
  | _ :: _ =>
      let sorted := sort_desc id position_scores in
      ({| week := wk;
          highest_score := sorted !! 0%nat;
          twelfth_highest_score :=
            if bool_decide (12 ≤ length sorted)%nat then sorted !! 11%nat
            else None |},
       [])
  end.

(** The body of [for week in range(start_week, end_week + 1)]; [not
    matchups] holds of a failed fetch ([None]) and of an empty list. *)
Definition week_step (get_matchups : Z → option (list matchup))
    (players : gmap string player_info) (pos : string)
    (acc : list week_scores * list diag) (wk : Z)
    : list week_scores * list diag :=
  match get_matchups wk with
  | None | Some [] => (acc.1, acc.2 ++ [FailedMatchups wk])
  | Some matchups =>
      let entry := week_entry pos wk (position_scores_of players pos matchups) in
      (acc.1 ++ [entry.1], acc.2 ++ entry.2)
  end.

(** [find_scores_by_position], given what [get_matchups] returns: the list
    returned and the lines printed. *)
Definition find_scores_by_position (get_matchups : Z → option (list matchup))
    (players : gmap string player_info) (start_week end_week : Z)
    (pos : string) : list week_scores * list diag :=
  foldl (week_step get_matchups players pos) ([], [])
    (seqZ start_week (end_week + 1 - start_week)).

(** *** The rank statistics of one week *)

Lemma sort_desc_head_max (scores : list Q) (m : Q) (rest : list Q) :
  sort_desc id scores = m :: rest →
  m ∈ scores ∧ Forall (λ x, (x <= m)%Q) scores.
Proof.
  intros Hs. pose proof (sort_desc_perm id scores) as Hperm.
  pose proof (sort_desc_sorted id scores) as Hsorted.
  rewrite Hs in Hperm, Hsorted. split.
  - rewrite <- Hperm. left.
  - rewrite <- Hperm. apply StronglySorted_cons in Hsorted as [Hm _].
    constructor; [apply Qle_refl|]. exact Hm.
Qed.

(** The scores of the example of the specification. *)
Definition example_scores : list Q := [8; 7; 6; 5; 4; 3; 2; 1]%Q.

(** C5: for the scores of one position in one week, the highest score
    reported is the first element of the descending sort, a score of the week
    that no other exceeds; with fewer than 12 scores the 12th-highest is
    [None], with 12 or more it is the 12th of the sort.  For the eight scores
    8, ..., 1 the highest is 8 and the 12th-highest is [None]. *)
Theorem week_entry_rank_stats (pos : string) (wk : Z) (scores : list Q) :
  let entry := (week_entry pos wk scores).1 in
  (scores ≠ [] →
     ∃ m, highest_score entry = Some m
          ∧ head (sort_desc id scores) = Some m
          ∧ m ∈ scores
          ∧ Forall (λ x, (x <= m)%Q) scores)
  ∧ ((length scores < 12)%nat → twelfth_highest_score entry = None)
  ∧ ((12 ≤ length scores)%nat →
       twelfth_highest_score entry = sort_desc id scores !! 11%nat
       ∧ is_Some (twelfth_highest_score entry))
  ∧ (week_entry "K" wk example_scores).1 =
      {| week := wk; highest_score := Some 8%Q;
         twelfth_highest_score := None |}.
Proof.
  cbn zeta. split_and!.
  - intros Hne. destruct scores as [|x scores]; [done|].
    cbn [week_entry fst highest_score].
    destruct (sort_desc id (x :: scores)) as [|m rest] eqn:Hs.
    { by apply sort_desc_nil_inv in Hs. }
    exists m. destruct (sort_desc_head_max _ _ _ Hs) as [Hin Hmax].
    by split_and!.
  - intros Hlen. destruct scores as [|x scores]; [done|].
    cbn [week_entry fst twelfth_highest_score].
    rewrite bool_decide_eq_false_2; [done|].
    rewrite sort_desc_length. lia.
  - intros Hlen. destruct scores as [|x scores]; [simpl in Hlen; lia|].
    cbn [week_entry fst twelfth_highest_score].
    rewrite bool_decide_eq_true_2 by (rewrite sort_desc_length; lia).
    split; [done|]. apply lookup_lt_is_Some. rewrite sort_desc_length. lia.
  - reflexivity.
Qed.

Lemma week_entry_rank_stats_witness :
  (example_scores ≠ []
   ∧ highest_score (week_entry "K" 3 example_scores).1 = Some 8%Q)
  ∧ ((length example_scores < 12)%nat
     ∧ twelfth_highest_score (week_entry "K" 3 example_scores).1 = None)
  ∧ ((12 ≤ length (example_scores ++ example_scores))%nat
     ∧ is_Some (twelfth_highest_score
                  (week_entry "K" 3 (example_scores ++ example_scores)).1)).
Proof.
  split_and!.
  - discriminate.
  - destruct (proj1 (week_entry_rank_stats "K" 3 example_scores))
      as (m & Hm & Hhead & _); [discriminate|].
    rewrite Hm, <- Hhead. reflexivity.
  - vm_compute. lia.
  - apply (proj1 (proj2 (week_entry_rank_stats "K" 3 example_scores))).
    vm_compute. lia.
  - vm_compute. lia.
  - apply (proj1 (proj2 (proj2
      (week_entry_rank_stats "K" 3 (example_scores ++ example_scores))))).
    vm_compute. lia.
Defined.

(** *** The weeks of the returned list *)

(** The weeks that get an entry: those whose fetch returned a list of
    matchups that is not empty. *)
Definition has_matchups (get_matchups : Z → option (list matchup)) (wk : Z)
    : bool :=
  match get_matchups wk with
  | Some (_ :: _) => true
  | _ => false
  end.

(** The weeks whose fetch did not fail, whatever it returned. *)
Definition fetched_weeks (get_matchups : Z → option (list matchup))
    (start_week end_week : Z) : list Z :=
  filter (λ wk, is_Some (get_matchups wk))
    (seqZ start_week (end_week + 1 - start_week)).

(** The entry of a week that has one. *)
Definition entry_of (get_matchups : Z → option (list matchup))
    (players : gmap string player_info) (pos : string) (wk : Z) : week_scores :=
  (week_entry pos wk
     (position_scores_of players pos (default [] (get_matchups wk)))).1.

Lemma week_entry_week pos wk scores : week (week_entry pos wk scores).1 = wk.
Proof. by destruct scores. Qed.

Lemma week_entry_no_scores pos wk :
  (week_entry pos wk []).1 =
  {| week := wk; highest_score := None; twelfth_highest_score := None |}.
Proof. reflexivity. Qed.

Lemma week_fold get_matchups players pos acc (weeks : list Z) :
  (foldl (week_step get_matchups players pos) acc weeks).1 =
  acc.1 ++ (entry_of get_matchups players pos <$>
              filter (λ wk, has_matchups get_matchups wk = true) weeks).
Proof.
  revert acc. induction weeks as [|wk weeks IH]; intros acc; cbn [foldl].
  - by rewrite filter_nil, app_nil_r.
  - rewrite IH, filter_cons. unfold week_step, has_matchups, entry_of.
    destruct (get_matchups wk) as [[|m ms]|] eqn:E; cbn [fst].
    + by rewrite decide_False.
    + rewrite decide_True by done. rewrite fmap_cons, E. cbn [default].
      by rewrite <- (assoc (++)).
    + by rewrite decide_False.
Qed.

Lemma fmap_week_entry_of get_matchups players pos (weeks : list Z) :
  week <$> (entry_of get_matchups players pos <$> weeks) = weeks.
Proof.
  induction weeks as [|wk weeks IH]; [done|].
  rewrite !fmap_cons, IH. unfold entry_of. by rewrite week_entry_week.
Qed.

(** C10: the weeks of the returned entries are, in increasing order, the
    weeks of the range whose fetch returned a list of matchups that is not
    empty; a week whose fetch failed, or returned the empty list, has no
    entry; and the entry of a week without a score at the position has
    [None] for both statistics. *)
Theorem find_scores_by_position_weeks
    (get_matchups : Z → option (list matchup))
    (players : gmap string player_info)
    (start_week end_week : Z) (pos : string) :
  let result :=
    (find_scores_by_position get_matchups players start_week end_week pos).1 in
  week <$> result =
    filter (λ wk, has_matchups get_matchups wk = true)
      (seqZ start_week (end_week + 1 - start_week))
  ∧ StronglySorted Z.lt (week <$> result)
  ∧ (∀ wk, get_matchups wk = None ∨ get_matchups wk = Some [] →
       wk ∉ week <$> result)
  ∧ Forall (λ entry,
      ∃ matchups,
        get_matchups (week entry) = Some matchups ∧ matchups ≠ []
        ∧ entry = (week_entry pos (week entry)
                     (position_scores_of players pos matchups)).1
        ∧ (position_scores_of players pos matchups = [] →
           highest_score entry = None
           ∧ twelfth_highest_score entry = None)) result.
Proof.
  cbn zeta. unfold find_scores_by_position. rewrite week_fold. cbn [fst app].
  rewrite fmap_week_entry_of. split_and!.
  - done.
  - apply StronglySorted_filter, StronglySorted_seqZ.
  - intros wk Hwk Hin. apply list_elem_of_filter in Hin as [Hin _].
    unfold has_matchups in Hin. by destruct Hwk as [Hwk|Hwk]; rewrite Hwk in Hin.
  - apply Forall_fmap, Forall_forall. intros wk Hin.
    apply list_elem_of_filter in Hin as [Hin _].
    unfold has_matchups in Hin. cbn. unfold entry_of.
    rewrite week_entry_week.
    destruct (get_matchups wk) as [[|m ms]|] eqn:E; try done.
    exists (m :: ms). split_and!; [done|done|done|].
    change (default [] (Some (m :: ms))) with (m :: ms). by intros ->.
Qed.

(** Week 1 is not fetched, week 2 has one kicker score, week 3 has a
    matchup without a kicker, week 4 is fetched as the empty list. *)
Definition example_players : gmap string player_info :=
  {[ "k1" := {| position := Some "K" |};
     "q1" := {| position := Some "QB" |} ]}%string.

Definition example_weeks (wk : Z) : option (list matchup) :=
  if bool_decide (wk = 2) then
    Some [ {| players_points := [("k1", 9); ("q1", 21)]%string%Q |} ]
  else if bool_decide (wk = 3) then
    Some [ {| players_points := [("q1", 17)]%string%Q |} ]
  else if bool_decide (wk = 4) then Some []
  else None.

Example find_scores_by_position_example :
  (find_scores_by_position example_weeks example_players 1 4 "K").1 =
  [ {| week := 2; highest_score := Some 9%Q; twelfth_highest_score := None |};
    {| week := 3; highest_score := None; twelfth_highest_score := None |} ].
Proof. vm_compute. reflexivity. Qed.

Lemma find_scores_by_position_weeks_witness :
  (example_weeks 1 = None ∨ example_weeks 1 = Some [])
  ∧ 1 ∉ week <$>
      (find_scores_by_position example_weeks example_players 1 4 "K").1.
Proof.
  split; [by left|].
  apply (proj1 (proj2 (proj2
    (find_scores_by_position_weeks example_weeks example_players 1 4 "K")))).
  by left.
Defined.

(** A week that is fetched, as the empty list, and has no entry: the weeks
    of the entries are not the weeks whose fetch did not fail. *)
Lemma find_scores_by_position_drops_empty_week :
  week <$> (find_scores_by_position example_weeks example_players 4 4 "K").1
  ≠ fetched_weeks example_weeks 4 4.
Proof. vm_compute. discriminate. Qed.

(** *** The two series of [main] *)

(** The weeks of the entries do not depend on the position: the series
    for K and for TE that [main] computes from the same fetched weeks have
    entries for the same weeks, in the same order, which [plot_scores]
    relies on when it takes the weeks of the K series for both. *)
Theorem find_scores_by_position_same_weeks
    (get_matchups : Z → option (list matchup))
    (players : gmap string player_info)
    (start_week end_week : Z) (pos1 pos2 : string) :
  week <$> (find_scores_by_position get_matchups players start_week end_week pos1).1
  = week <$> (find_scores_by_position get_matchups players start_week end_week pos2).1.
Proof.
  unfold find_scores_by_position. rewrite !week_fold. cbn [fst app].
  by rewrite !fmap_week_entry_of.
Qed.

(** *** What an entry holds *)

Lemma position_scores_of_elem (players : gmap string player_info) (pos : string)
    (matchups : list matchup) (q : Q) :
  q ∈ position_scores_of players pos matchups ↔
  ∃ m pid, m ∈ matchups ∧ (pid, q) ∈ players_points m
           ∧ ∃ info, players !! pid = Some info ∧ position info = Some pos.
Proof.
  unfold position_scores_of. rewrite list_elem_of_bind. split.
  - intros (m & Hq & Hm). apply list_elem_of_fmap in Hq as ([pid q'] & -> & Hq).
    apply list_elem_of_filter in Hq as [Hpos Hq]. cbn [fst snd] in *.
    exists m, pid. split_and!; [done|done|].
    destruct (players !! pid) as [info|]; [|done]. by exists info.
  - intros (m & pid & Hm & Hq & info & Hinfo & Hpos).
    exists m. split; [|done]. apply list_elem_of_fmap. exists (pid, q).
    split; [done|]. apply list_elem_of_filter. cbn [fst]. split; [|done].
    by rewrite Hinfo.
Qed.

Lemma week_entry_scores (pos : string) (wk : Z) (scores : list Q) :
  let entry := (week_entry pos wk scores).1 in
  (∀ h, highest_score entry = Some h → h ∈ scores)
  ∧ (∀ t, twelfth_highest_score entry = Some t →
       t ∈ scores ∧ (12 ≤ length scores)%nat
       ∧ ∃ h, highest_score entry = Some h ∧ (t <= h)%Q).
Proof.
  cbn zeta. destruct scores as [|x scores].
  { split; [done|]. by intros t. }
  cbn [week_entry fst highest_score twelfth_highest_score].
  pose proof (sort_desc_perm id (x :: scores)) as Hperm.
  pose proof (sort_desc_sorted id (x :: scores)) as Hsorted.
  pose proof (sort_desc_length id (x :: scores)) as Hlen.
  destruct (sort_desc id (x :: scores)) as [|h rest] eqn:Hs; [done|].
  split.
  - intros h' [= <-]. rewrite <- Hperm. left.
  - intros t Ht. case_bool_decide as H12; [|done].
    assert (t ∈ h :: rest) as Hin by (by eapply list_elem_of_lookup_2).
    split_and!; [by rewrite <- Hperm|by rewrite <- Hlen|].
    exists h. split; [done|].
    apply StronglySorted_cons in Hsorted as [Hh _].
    cbn in Ht. apply list_elem_of_lookup_2 in Ht.
    rewrite Forall_forall in Hh. apply (Hh t Ht).
Qed.

(** In every entry returned, a highest score is the score of a player of
    the requested position in a matchup of that week, and a 12th-highest
    score comes with a highest score that is not smaller, in a week with at
    least 12 scores at the position. *)
Theorem find_scores_by_position_entries
    (get_matchups : Z → option (list matchup))
    (players : gmap string player_info)
    (start_week end_week : Z) (pos : string) :
  Forall (λ entry,
    ∃ matchups,
      get_matchups (week entry) = Some matchups
      ∧ (∀ h, highest_score entry = Some h →
           ∃ m pid info, m ∈ matchups ∧ (pid, h) ∈ players_points m
                         ∧ players !! pid = Some info
                         ∧ position info = Some pos)
      ∧ (∀ t, twelfth_highest_score entry = Some t →
           (12 ≤ length (position_scores_of players pos matchups))%nat
           ∧ ∃ h, highest_score entry = Some h ∧ (t <= h)%Q))
    (find_scores_by_position get_matchups players start_week end_week pos).1.
Proof.
  unfold find_scores_by_position. rewrite week_fold. cbn [fst app].
  apply Forall_fmap, Forall_forall. intros wk Hwk.
  apply list_elem_of_filter in Hwk as [Hwk _]. unfold has_matchups in Hwk.
  cbn. unfold entry_of. rewrite week_entry_week.
  destruct (get_matchups wk) as [[|m ms]|] eqn:E; try done.
  exists (m :: ms). change (default [] (Some (m :: ms))) with (m :: ms).
  destruct (week_entry_scores pos wk (position_scores_of players pos (m :: ms)))
    as [Hhigh Htw].
  split_and!; [done| |].
  - intros h Hh. apply Hhigh, position_scores_of_elem in Hh
      as (m' & pid & Hm' & Hq & info & Hinfo & Hpos).
    by exists m', pid, info.
  - intros t Ht. destruct (Htw t Ht) as (_ & Hlen & Hh). by split.
Qed.

(** Every week of the range either gets an entry or prints the line of a
    failed fetch, never both. *)
Definition is_failed (d : diag) : bool :=
  match d with FailedMatchups _ => true | NoScores _ _ => false end.

Lemma week_fold_count get_matchups players pos acc (weeks : list Z) :
  let res := foldl (week_step get_matchups players pos) acc weeks in
  (length res.1 + length (filter (λ d, is_failed d = true) res.2)
   = length acc.1 + length (filter (λ d, is_failed d = true) acc.2)
     + length weeks)%nat.
Proof.
  cbn zeta. revert acc. induction weeks as [|wk weeks IH]; intros acc.
  - cbn. lia.
  - cbn [foldl length]. rewrite IH. unfold week_step.
    destruct (get_matchups wk) as [[|m ms]|]; cbn [fst snd].
    + rewrite filter_app, length_app. cbn. rewrite decide_True by done. cbn. lia.
    + rewrite filter_app, !length_app. cbn [length].
      assert (filter (λ d, is_failed d = true)
                (week_entry pos wk (position_scores_of players pos (m :: ms))).2
              = []) as ->.
      { unfold week_entry. by destruct (position_scores_of _ _ _). }
      cbn. lia.
    + rewrite filter_app, length_app. cbn. rewrite decide_True by done. cbn. lia.
Qed.

Theorem find_scores_by_position_accounts
    (get_matchups : Z → option (list matchup))
    (players : gmap string player_info)
    (start_week end_week : Z) (pos : string) :
  let res := find_scores_by_position get_matchups players start_week end_week pos in
  (length res.1 + length (filter (λ d, is_failed d = true) res.2))%nat
  = Z.to_nat (end_week + 1 - start_week).
Proof.
  cbn zeta. unfold find_scores_by_position.
  rewrite week_fold_count. cbn. by rewrite length_seqZ.
Qed.

End TopScorer.

(** ** [Kickers.py] *)
Module Kickers.

(** A row of the play-by-play table, with the three columns the script
    reads; distances are whole yards. *)
Record field_goal := {
  play_id : Z;
  kick_distance : Z;
  field_goal_result : string
}.

Definition bins : list Z := [0; 29; 39; 49; 54; 59; 99].
Definition labels : list string :=
  ["<30"; "30-39"; "40-49"; "50-54"; "55-59"; "60+"]%string.

(** [numpy.searchsorted(edges, x, side="right")] on ascending edges: the
    number of edges that are not larger than [x]. *)
Definition searchsorted_right (edges : list Z) (x : Z) : nat :=
  length (filter (λ b, b ≤ x) edges).

(** [pandas.cut(x, bins=edges, labels=names, right=False)], as pandas
    documents and computes it: the intervals are closed on the left and open
    on the right, the interval of [x] is found with [searchsorted] on the
    right side, and a value below the first edge or not below the last one
    has no bucket ([NaN], here [None]). *)
Definition cut (edges : list Z) (names : list string) (x : Z) : option string :=
  let ids := searchsorted_right edges x in
  if bool_decide (ids = 0%nat ∨ ids = length edges) then None
  else names !! (ids - 1)%nat.

(** A float64 of the summary: a number, an infinity, or NaN. *)
Inductive float64 := Finite (q : Q) | PosInf | NegInf | NaN.

(** [a / b] on two integer columns: true division, with [0 / 0 = NaN] and
    [a / 0] infinite. *)
Definition truediv (a b : Z) : float64 :=
  if bool_decide (b = 0) then
    if bool_decide (a = 0) then NaN
    else if bool_decide (0 < a) then PosInf else NegInf
  else Finite (inject_Z a / inject_Z b).

(** [x * 100] *)
Definition times_100 (x : float64) : float64 :=
  match x with
  | Finite q => Finite (q * 100)
  | PosInf => PosInf
  | NegInf => NegInf
  | NaN => NaN
  end.

(** A row of [fg_summary]. *)
Record summary_row := {
  distance_bucket : string;
  attempts : Z;
  makes : Z;
  success_rate : float64
}.

(** The rows of [field_goals] in the bucket [label]. *)
Definition bucket_rows (field_goals : list field_goal) (label : string)
    : list field_goal :=
  filter (λ fg, cut bins labels (kick_distance fg) = Some label) field_goals.

(** The labels that get a row in the group-by on the categorical column,
    in the order of [labels].  The script does not pass [observed] to
    [groupby], so its default decides, and the default depends on the pandas
    that runs the script: [False] before pandas 3.0 (every label has a row,
    also one without kicks), [True] from pandas 3.0 on (only the labels with
    at least one kick have a row). *)
Definition grouped_labels (observed : bool) (field_goals : list field_goal)
    : list string :=
  if observed
  then filter (λ label, length (bucket_rows field_goals label) ≠ 0%nat) labels
  else labels.

(** The row of one label: [attempts] counts the rows of the bucket, [makes]
    those whose result is ["made"]. *)
Definition summary_row_of (field_goals : list field_goal) (label : string)
    : summary_row :=
  let group := bucket_rows field_goals label in
  let attempts := Z.of_nat (length group) in
  let makes :=
    Z.of_nat (length (filter (λ fg, field_goal_result fg = "made"%string) group)) in
  {| distance_bucket := label;
     attempts := attempts;
     makes := makes;
     success_rate := times_100 (truediv makes attempts) |}.

(** [analyze_field_goal_distances], for either default of [observed]. *)
Definition analyze_field_goal_distances (observed : bool)
    (field_goals : list field_goal) : list summary_row :=
  summary_row_of field_goals <$> grouped_labels observed field_goals.

(** The bucket that the label names: ["<30"] below 30 yards, ["30-39"]
    from 30 to 39, and so on. *)
Definition labelled_bucket (d : Z) : string :=
  if bool_decide (d < 30) then "<30"%string
  else if bool_decide (d ≤ 39) then "30-39"%string
  else if bool_decide (d ≤ 49) then "40-49"%string
  else if bool_decide (d ≤ 54) then "50-54"%string
  else if bool_decide (d ≤ 59) then "55-59"%string
  else "60+"%string.

(** *** The buckets of the code *)

(** The bucket of a distance, interval by interval. *)
Lemma cut_bins (d : Z) :
  cut bins labels d =
  if bool_decide (d < 0) then None
  else if bool_decide (d < 29) then Some "<30"%string
  else if bool_decide (d < 39) then Some "30-39"%string
  else if bool_decide (d < 49) then Some "40-49"%string
  else if bool_decide (d < 54) then Some "50-54"%string
  else if bool_decide (d < 59) then Some "55-59"%string
  else if bool_decide (d < 99) then Some "60+"%string
  else None.
Proof.
  repeat case_bool_decide;
    unfold cut, searchsorted_right, bins;
    repeat (rewrite filter_cons;
            first [rewrite decide_True by lia|rewrite decide_False by lia]);
    reflexivity.
Qed.

(** Every distance of the range has one bucket, and a bucket is one of the
    six labels. *)
Lemma cut_bins_total (d : Z) :
  0 ≤ d < 99 → ∃ label, cut bins labels d = Some label ∧ label ∈ labels.
Proof.
  intros Hd. rewrite cut_bins. unfold labels.
  repeat case_bool_decide; try lia; eexists; (split; [reflexivity|]);
    apply list_elem_of_In; cbn; tauto.
Qed.

(** C6: a kick of 29 yards is put in the bucket labelled ["30-39"], not in
    ["<30"], and so at each inner edge (29, 39, 49, 54, 59): the distance
    just below the lower bound that a label names is counted in that
    label's bucket. *)
Theorem cut_edge_distances :
  cut bins labels 29 = Some "30-39"%string
  ∧ labelled_bucket 29 = "<30"%string
  ∧ Forall (λ d, cut bins labels d ≠ Some (labelled_bucket d))
      [29; 39; 49; 54; 59].
Proof.
  split_and!; [reflexivity|reflexivity|].
  repeat constructor; vm_compute; discriminate.
Qed.

(** *** The success rate *)

Lemma makes_le_attempts (field_goals : list field_goal) (label : string) :
  let group := bucket_rows field_goals label in
  0 ≤ Z.of_nat (length (filter (λ fg, field_goal_result fg = "made"%string) group))
    ≤ Z.of_nat (length group).
Proof.
  cbn zeta. split; [lia|]. apply inj_le, length_filter.
Qed.

Lemma truediv_counts (m a : Z) :
  0 ≤ m ≤ a →
  times_100 (truediv m a) =
  if bool_decide (a = 0) then NaN
  else Finite (inject_Z m / inject_Z a * 100).
Proof.
  intros Hm. unfold truediv. case_bool_decide as Ha; [|done].
  rewrite bool_decide_eq_true_2 by lia. done.
Qed.




(** Two short kicks, one made, and nothing longer. *)
Definition short_kicks : list field_goal :=
  [ {| play_id := 1; kick_distance := 25; field_goal_result := "made" |};
    {| play_id := 2; kick_distance := 28; field_goal_result := "missed" |} ].

Example analyze_field_goal_distances_example :
  analyze_field_goal_distances false short_kicks
  = [ {| distance_bucket := "<30"; attempts := 2; makes := 1;
         success_rate := Finite (1 / 2 * 100) |};
      {| distance_bucket := "30-39"; attempts := 0; makes := 0; success_rate := NaN |};
      {| distance_bucket := "40-49"; attempts := 0; makes := 0; success_rate := NaN |};
      {| distance_bucket := "50-54"; attempts := 0; makes := 0; success_rate := NaN |};
      {| distance_bucket := "55-59"; attempts := 0; makes := 0; success_rate := NaN |};
      {| distance_bucket := "60+"; attempts := 0; makes := 0; success_rate := NaN |} ]%string
  ∧ analyze_field_goal_distances true short_kicks
  = [ {| distance_bucket := "<30"; attempts := 2; makes := 1;
         success_rate := Finite (1 / 2 * 100) |} ]%string.
Proof. split; reflexivity. Qed.

(** *** Every kick of the range is counted once *)

Definition sumZ (l : list Z) : Z := foldr Z.add 0 l.

(** The distances that have a bucket. *)
Definition in_range (fg : field_goal) : Prop := 0 ≤ kick_distance fg < 99.

Global Instance in_range_dec (fg : field_goal) : Decision (in_range fg).
Proof. unfold in_range. apply _. Defined.

(** The number of labels that are the bucket of [d]: one in the range, none
    outside. *)
Lemma cut_one_label (d : Z) :
  length (filter (λ label, cut bins labels d = Some label) labels) =
  if bool_decide (0 ≤ d < 99) then 1%nat else 0%nat.
Proof.
  rewrite cut_bins.
  repeat case_bool_decide; try lia; vm_compute; reflexivity.
Qed.

Lemma sumZ_cons (x : Z) (l : list Z) : sumZ (x :: l) = x + sumZ l.
Proof. reflexivity. Qed.

(** Summing, over the labels, the rows of each bucket that satisfy [Q]
    counts every row of the range that satisfies [Q] once. *)
Lemma bucket_rows_count (Q : field_goal → Prop) `{!∀ fg, Decision (Q fg)}
    (field_goals : list field_goal) (names : list string) :
  sumZ ((λ label, Z.of_nat (length (filter Q (bucket_rows field_goals label))))
          <$> names) =
  sumZ ((λ fg, if decide (Q fg)
               then Z.of_nat (length (filter (λ label,
                      cut bins labels (kick_distance fg) = Some label) names))
               else 0) <$> field_goals).
Proof.
  induction field_goals as [|fg fgs IH].
  - induction names as [|n names IHn]; [done|].
    rewrite fmap_cons, sumZ_cons, IHn. done.
  - rewrite fmap_cons, sumZ_cons, <- IH. clear IH.
    induction names as [|n names IHn].
    + by destruct (decide (Q fg)).
    + rewrite !fmap_cons, !sumZ_cons, IHn.
      unfold bucket_rows at 1. rewrite (filter_cons _ fg), (filter_cons _ n).
      fold (bucket_rows fgs n).
      destruct (decide (cut bins labels (kick_distance fg) = Some n)) as [E|E].
      * rewrite (filter_cons Q fg).
        destruct (decide (Q fg)); cbn [length]; lia.
      * destruct (decide (Q fg)); lia.
Qed.

Lemma sumZ_in_range (Q : field_goal → Prop) `{!∀ fg, Decision (Q fg)}
    (field_goals : list field_goal) :
  sumZ ((λ fg, if decide (Q fg)
               then Z.of_nat (length (filter (λ label,
                      cut bins labels (kick_distance fg) = Some label) labels))
               else 0) <$> field_goals) =
  Z.of_nat (length (filter Q (filter in_range field_goals))).
Proof.
  induction field_goals as [|fg fgs IH]; [done|].
  rewrite fmap_cons, sumZ_cons, IH, cut_one_label, (filter_cons in_range fg).
  destruct (decide (in_range fg)) as [Hr|Hr].
  - rewrite bool_decide_eq_true_2 by done. rewrite (filter_cons Q fg).
    destruct (decide (Q fg)); cbn [length]; lia.
  - rewrite bool_decide_eq_false_2 by done. destruct (decide (Q fg)); lia.
Qed.

Lemma sumZ_filter_zero {A} (P : A → Prop) `{!∀ x, Decision (P x)}
    (f : A → Z) (l : list A) :
  (∀ x, ¬ P x → f x = 0) → sumZ (f <$> filter P l) = sumZ (f <$> l).
Proof.
  intros Hzero. induction l as [|x l IH]; [done|].
  rewrite filter_cons, (fmap_cons f x l), (sumZ_cons (f x)).
  destruct (decide (P x)) as [HP|HP].
  - by rewrite fmap_cons, sumZ_cons, IH.
  - rewrite IH, (Hzero x HP). lia.
Qed.

Lemma sumZ_grouped (f : string → Z) observed field_goals :
  (∀ label, bucket_rows field_goals label = [] → f label = 0) →
  sumZ (f <$> grouped_labels observed field_goals) = sumZ (f <$> labels).
Proof.
  intros Hzero. unfold grouped_labels. destruct observed; [|done].
  apply sumZ_filter_zero. intros label Hlabel. apply Hzero.
  destruct (bucket_rows field_goals label); [done|]. by destruct Hlabel.
Qed.

(** The attempts of the rows of the summary add up to the kicks whose
    distance is from 0 to 98 yards, and the makes to those of them that were
    made, whichever default of [observed] the pandas at hand has: a kick of
    the range is counted in exactly one row, a kick outside it (negative, or
    99 yards and more) in none. *)
Theorem analyze_field_goal_distances_totals (observed : bool)
    (field_goals : list field_goal) :
  let fg_summary := analyze_field_goal_distances observed field_goals in
  sumZ (attempts <$> fg_summary) =
    Z.of_nat (length (filter in_range field_goals))
  ∧ sumZ (makes <$> fg_summary) =
    Z.of_nat (length (filter (λ fg, field_goal_result fg = "made"%string)
                        (filter in_range field_goals))).
Proof.
  cbn zeta. unfold analyze_field_goal_distances.
  rewrite <- !list_fmap_compose. split.
  - rewrite sumZ_grouped by (by intros label Hl; cbn; rewrite Hl).
    rewrite <- (filter_all (λ _, True) (filter in_range field_goals))
      by (by apply Forall_forall).
    rewrite <- (sumZ_in_range (λ _, True)), <- bucket_rows_count.
    f_equal. apply list_fmap_ext. intros _ label _. cbn.
    by rewrite filter_all by (by apply Forall_forall).
  - rewrite sumZ_grouped by (by intros label Hl; cbn; rewrite Hl).
    by rewrite <- (sumZ_in_range (λ fg, field_goal_result fg = "made"%string)),
      <- bucket_rows_count.
Qed.

(** *** The range of the success rate *)

(** A success rate is NaN or a percentage from 0 to 100, never an
    infinity, whichever default of [observed] the pandas at hand has: the
    right axis of the plot, set to 0..100, holds it. *)
Theorem success_rate_range (observed : bool) (field_goals : list field_goal) :
  Forall (λ row,
    success_rate row = NaN
    ∨ ∃ q, success_rate row = Finite q ∧ (0 <= q <= 100)%Q ∧ attempts row ≠ 0)
    (analyze_field_goal_distances observed field_goals).
Proof.
  unfold analyze_field_goal_distances. apply Forall_fmap, Forall_forall.
  intros label _. cbn.
  pose proof (makes_le_attempts field_goals label) as Hm. cbn zeta in Hm.
  rewrite truediv_counts by done.
  set (a := Z.of_nat (length (bucket_rows field_goals label))) in *.
  set (m := Z.of_nat (length (filter _ (bucket_rows field_goals label)))) in *.
  case_bool_decide as Ha; [by left|].
  right. eexists. split; [done|]. split; [|done].
  assert (0 < inject_Z a)%Q as Hpos.
  { change 0%Q with (inject_Z 0). rewrite <- Zlt_Qlt. lia. }
  assert (0 <= inject_Z m)%Q as Hm0.
  { change 0%Q with (inject_Z 0). rewrite <- Zle_Qle. lia. }
  assert (inject_Z m <= inject_Z a)%Q as Hma.
  { rewrite <- Zle_Qle. lia. }
  assert (0 <= inject_Z m / inject_Z a <= 1)%Q as [H0 H1].
  { split.
    - apply Qle_shift_div_l; [done|]. lra.
    - apply Qle_shift_div_r; [done|]. lra. }
  lra.
Qed.

End Kickers.
